(** * Conflict resolution for JSON patches

    A shallow embedding of the conflict-resolution module of the JSON patch
    demo (the types of [types/patch] and the functions [findMatchingPatch],
    [resolveConflicts], [generateResolvedPatch] and [initializeResolutions])
    and of the handlers of the [JsonEditor] component, followed by the
    properties of the merge and of the editor.

    JavaScript compares objects by reference: [new Set<Patch>()] keeps one
    entry per patch *object*, not per patch content.  Patch objects therefore
    live in a store and arrays hold references into it. *)

From stdpp Require Import base list strings gmap.

(** ** Data model *)

Module PatchOperation.
Inductive t := add | remove | replace.
End PatchOperation.

Module Patch.
(** [value?: unknown] is never inspected by the module: its type is a
    parameter, and the field is optional. *)
Record t (V : Type) := mk {
  op : PatchOperation.t;
  path : string;
  value : option V;
  hash : string
}.
Arguments mk {V} _ _ _ _.
Arguments op {V} _.
Arguments path {V} _.
Arguments value {V} _.
Arguments hash {V} _.
End Patch.

(** A reference to a patch object. *)
Definition loc := nat.

Module ConflictDetail.
Record t := mk {
  path : string;
  options : list string
}.
End ConflictDetail.

Module ConflictResolution.
Record t := mk {
  path : string;
  selectedHash : string
}.
End ConflictResolution.

Module CustomConflictResolution.
Record t := mk {
  path : string;
  patch : loc
}.
End CustomConflictResolution.

Definition ConflictResolutions := list ConflictResolution.t.
Definition UnresolvedConflicts := list string.
Definition CustomConflictResolutions := list CustomConflictResolution.t.

(** ** The JavaScript [Set], as far as the module uses it

    A [Set] iterates in insertion order and [add] of a member changes
    nothing, so a set is the list of its members in insertion order. *)

Module JsSet.
Section JsSet.
Context {A : Type} `{EqDecision A}.

Definition empty : list A := [].

Definition add (x : A) (s : list A) : list A :=
  if decide (x ∈ s) then s else s ++ [x].

(** [Array.from(s)] *)
Definition toArray (s : list A) : list A := s.
End JsSet.
End JsSet.

(** [arr.includes(x)] on an array of strings. *)
Definition includes (arr : list string) (x : string) : bool :=
  bool_decide (x ∈ arr).

Module Result.
Record t := mk {
  unresolvedConflicts : UnresolvedConflicts;
  resolvedPatches : list loc
}.
End Result.

(** ** The module *)

Section Merge.
Context {V : Type}.
(** The store: the patch object behind each reference. *)
Variable σ : loc → Patch.t V.

Definition findMatchingPatch (patches : list loc) (optionHash : string)
  : option loc :=
  find (λ patch, String.eqb (Patch.hash (σ patch)) optionHash) patches.

(** The callback of [conflicts.forEach] in [resolveConflicts], as a
    transformer of [includedPatches]. *)
Definition resolveStep (patches : list loc) (resolutions : ConflictResolutions)
    (includedPatches : list loc) (conflict : ConflictDetail.t) : list loc :=
  let resolution :=
    find (λ res, String.eqb (ConflictResolution.path res)
                            (ConflictDetail.path conflict)) resolutions in
  let otherwise :=
    if bool_decide (0 < length (ConflictDetail.options conflict)) then
      match ConflictDetail.options conflict !! 0 with
      | Some defaultHash =>
          match findMatchingPatch patches defaultHash with
          | Some matchingPatch => JsSet.add matchingPatch includedPatches
          | None => includedPatches
          end
      | None => includedPatches
      end
    else includedPatches in
  match resolution with
  | Some res =>
      if includes (ConflictDetail.options conflict)
                  (ConflictResolution.selectedHash res) then
        match findMatchingPatch patches (ConflictResolution.selectedHash res) with
        | Some matchingPatch => JsSet.add matchingPatch includedPatches
        | None => includedPatches
        end
      else otherwise
  | None => otherwise
  end.

(** [includedPatches] after the [forEach]. *)
Definition includedPatches (patches : list loc) (conflicts : list ConflictDetail.t)
    (resolutions : ConflictResolutions) : list loc :=
  foldl (resolveStep patches resolutions) JsSet.empty conflicts.

(** The optional parameter [customResolutions] defaults to the empty
    array; a caller that omits it passes [[]]. *)
Definition resolveConflicts (patches : list loc) (conflicts : list ConflictDetail.t)
    (resolutions : ConflictResolutions) (customResolutions : CustomConflictResolutions)
  : list loc :=
  if bool_decide (length conflicts = 0) then patches
  else
    let includedPatches := includedPatches patches conflicts resolutions in
    let conflictPaths : gset string :=
      list_to_set (ConflictDetail.path <$> conflicts) in
    let nonConflictPatches :=
      filter (λ patch, Patch.path (σ patch) ∉ conflictPaths) patches in
    nonConflictPatches
      ++ JsSet.toArray includedPatches
      ++ (if bool_decide (0 < length customResolutions)
          then CustomConflictResolution.patch <$> customResolutions
          else []).

(** The callback of the [forEach] that collects the unresolved hashes. *)
Definition unresolvedStep (resolutions : ConflictResolutions)
    (unresolvedHashes : list string) (conflict : ConflictDetail.t) : list string :=
  let resolution :=
    find (λ r, String.eqb (ConflictResolution.path r)
                          (ConflictDetail.path conflict)) resolutions in
  match resolution with
  | None =>
      foldl (λ s hash, JsSet.add hash s) unresolvedHashes
            (ConflictDetail.options conflict)
  | Some _ => unresolvedHashes
  end.

Definition generateResolvedPatch (patches : list (list loc))
    (conflicts : list ConflictDetail.t) (resolutions : ConflictResolutions)
    (customResolutions : CustomConflictResolutions) : Result.t :=
  let allPatches := concat patches in
  if bool_decide (length allPatches = 0) then Result.mk [] []
  else if bool_decide (length conflicts = 0) then Result.mk [] allPatches
  else
    let unresolvedHashes :=
      foldl (unresolvedStep resolutions) JsSet.empty conflicts in
    let resolvedPatches :=
      resolveConflicts allPatches conflicts resolutions customResolutions in
    Result.mk (JsSet.toArray unresolvedHashes) resolvedPatches.
End Merge.

(** [conflict.options[0]] under the guard [options.length > 0] of the
    preceding [filter]; out of range (not reachable there) JavaScript
    yields [undefined], which has no counterpart in [string]. *)
Definition firstOption (conflict : ConflictDetail.t) : string :=
  default EmptyString (ConflictDetail.options conflict !! 0).

Definition initializeResolutions (conflicts : list ConflictDetail.t)
  : ConflictResolutions :=
  (λ conflict, ConflictResolution.mk (ConflictDetail.path conflict)
                                     (firstOption conflict))
    <$> filter (λ conflict, 0 < length (ConflictDetail.options conflict)) conflicts.

(** ** The JSON editor component

    [JsonEditor] keeps two pieces of state, [error] and [displayValue], and
    reports edits to its parent through [onChange].  A handler is a
    function from the props and the state of the render it closes over to
    the state after its [set...] calls and the texts passed to [onChange],
    in call order.  [JSON.parse], [JSON.stringify], [trim] and [formatJson]
    (of [utils/jsonUtils]) are parameters; a call that throws is [None].
    [onChange] is taken not to throw. *)

Module JsonEditor.

Record Props := mkProps {
  value : string;
  readOnly : bool
}.

Record State := mkState {
  error : option string;
  displayValue : option string
}.

(** [useState(null)], twice. *)
Definition initialState : State := mkState None None.

(** The buttons of the toolbar. *)
Inductive Button := Format | Compress | ResetDisplay.

Inductive Action := Click (button : Button) | ValueChanged.

(** Whether a string is truthy: it is not empty. *)
Definition truthy (s : string) : bool := negb (String.eqb s "").

Section Component.
Context {Json : Type}.
Variable JSON_parse : string → option Json.
Variable JSON_stringify : Json → string.
Variable formatJson : string → option string.
Variable trim : string → string.

(** The effect that runs when [value] changes. *)
Definition valueEffect (props : Props) (st : State) : State :=
  if truthy (value props) && truthy (trim (value props)) then
    match JSON_parse (value props) with
    | Some parsed => mkState (error st) (Some (JSON_stringify parsed))
    | None => mkState (error st) None
    end
  else st.

Definition handleChange (st : State) (newValue : string)
  : State * list string :=
  let error' :=
    if truthy (trim newValue) then
      match JSON_parse newValue with
      | Some _ => None
      | None => Some "JSON格式错误"%string
      end
    else None in
  (mkState error' None, [newValue]).

Definition handleFormat (props : Props) (st : State) : State * list string :=
  match formatJson (value props) with
  | Some formatted =>
      if readOnly props then (mkState (error st) (Some formatted), [])
      else (mkState (error st) None, [formatted])
  | None => (st, [])
  end.

Definition handleCompress (props : Props) (st : State) : State * list string :=
  if negb (truthy (trim (value props))) then (st, [])
  else
    match JSON_parse (value props) with
    | Some parsed =>
        let compressed := JSON_stringify parsed in
        if readOnly props then (mkState (error st) (Some compressed), [])
        else (mkState (error st) None, [compressed])
    | None => (st, [])
    end.

Definition handleResetDisplay (st : State) : State :=
  mkState (error st) None.

(** The text shown in the text area. *)
Definition actualValue (props : Props) (st : State) : string :=
  match displayValue st with
  | Some shown => shown
  | None => value props
  end.

(** The reset button is rendered only under
    [readOnly && displayValue !== null]. *)
Definition resetRendered (props : Props) (st : State) : bool :=
  readOnly props && bool_decide (is_Some (displayValue st)).

(** A click on a toolbar button, in a render with the given props. *)
Definition click (props : Props) (st : State) (button : Button)
  : State * list string :=
  match button with
  | Format => handleFormat props st
  | Compress => handleCompress props st
  | ResetDisplay =>
      if resetRendered props st then (handleResetDisplay st, []) else (st, [])
  end.

(** What happens to a mounted editor between two renders: a click, or the
    effect that follows a change of [value]. *)
Definition act (props : Props) (st : State) (action : Action)
  : State * list string :=
  match action with
  | Click button => click props st button
  | ValueChanged => (valueEffect props st, [])
  end.

(** A sequence of actions, each in a render with its own props; the texts
    passed to [onChange] are collected in order. *)
Fixpoint run (st : State) (trace : list (Props * Action))
  : State * list string :=
  match trace with
  | [] => (st, [])
  | (props, action) :: trace =>
      let '(st', calls) := act props st action in
      let '(st'', calls') := run st' trace in
      (st'', calls ++ calls')
  end.
End Component.
End JsonEditor.

(** ** Notions used to state the properties *)

(** The first occurrence of each element, in order: what iterating a
    [Set] built from the list gives. *)
Fixpoint firstOccurrences {A : Type} `{EqDecision A} (l : list A) : list A :=
  match l with
  | [] => []
  | x :: l => x :: filter (λ y, y ≠ x) (firstOccurrences l)
  end.

(** The resolution the merge consults for a conflict: the first one with
    the conflict's path. *)
Definition matchingResolution (resolutions : ConflictResolutions)
    (conflict : ConflictDetail.t) : option ConflictResolution.t :=
  find (λ res, String.eqb (ConflictResolution.path res)
                          (ConflictDetail.path conflict)) resolutions.

Section Selection.
Context {V : Type}.
Variable σ : loc → Patch.t V.

(** The patch looked up for the first option of a conflict. *)
Definition defaultSelection (patches : list loc) (conflict : ConflictDetail.t)
  : option loc :=
  match ConflictDetail.options conflict with
  | defaultHash :: _ => findMatchingPatch σ patches defaultHash
  | [] => None
  end.

(** The patch the merge chooses for a conflict, if any: the one named by
    the first resolution for the conflict's path when that names one of the
    options, the one of the first option otherwise. *)
Definition selection (patches : list loc) (resolutions : ConflictResolutions)
    (conflict : ConflictDetail.t) : option loc :=
  match matchingResolution resolutions conflict with
  | Some res =>
      if includes (ConflictDetail.options conflict)
                  (ConflictResolution.selectedHash res)
      then findMatchingPatch σ patches (ConflictResolution.selectedHash res)
      else defaultSelection patches conflict
  | None => defaultSelection patches conflict
  end.

(** The resolution read back for a conflict from a merge: the hash of the
    patch the merge chose for it, if it chose one. *)
Definition readBack (patches : list loc) (resolutions : ConflictResolutions)
    (conflict : ConflictDetail.t) : option ConflictResolution.t :=
  (λ chosen, ConflictResolution.mk (ConflictDetail.path conflict)
                                   (Patch.hash (σ chosen)))
    <$> selection patches resolutions conflict.

(** The resolutions read back from a merge, in the order of the
    conflicts. *)
Definition feedbackResolutions (patches : list loc)
    (conflicts : list ConflictDetail.t) (resolutions : ConflictResolutions)
  : ConflictResolutions :=
  omap (readBack patches resolutions) conflicts.

(** The path of the patch behind a reference. *)
Definition pathOf (p : loc) : string := Patch.path (σ p).
End Selection.

(** One default resolution per conflict that has options, in order. *)
Fixpoint defaultResolutions (conflicts : list ConflictDetail.t)
  : list ConflictResolution.t :=
  match conflicts with
  | [] => []
  | conflict :: conflicts =>
      match ConflictDetail.options conflict with
      | [] => defaultResolutions conflicts
      | first :: _ =>
          ConflictResolution.mk (ConflictDetail.path conflict) first
            :: defaultResolutions conflicts
      end
  end.

(** The options of the conflicts for which no resolution is consulted, in
    the order of the conflicts. *)
Definition unresolvedOptions (resolutions : ConflictResolutions)
    (conflicts : list ConflictDetail.t) : list string :=
  concat ((λ conflict,
             match matchingResolution resolutions conflict with
             | None => ConflictDetail.options conflict
             | Some _ => []
             end) <$> conflicts).

(** ** The insertion-ordered set *)

Section JsSetFacts.
Context {A : Type} `{EqDecision A}.
Implicit Types (x : A) (s l : list A).

Lemma add_member x s : x ∈ s → JsSet.add x s = s.
Proof. intros. unfold JsSet.add. by case_decide. Qed.

Lemma add_fresh x s : x ∉ s → JsSet.add x s = s ++ [x].
Proof. intros. unfold JsSet.add. by case_decide. Qed.

Lemma add_elem_of x y s : y ∈ JsSet.add x s ↔ y = x ∨ y ∈ s.
Proof.
  unfold JsSet.add. case_decide.
  - split; [auto | intros [->|]; auto].
  - rewrite elem_of_app, list_elem_of_singleton. tauto.
Qed.

Lemma add_NoDup x s : NoDup s → NoDup (JsSet.add x s).
Proof.
  intros Hs. unfold JsSet.add. case_decide; [done|].
  apply NoDup_app. split_and!; [done| |apply NoDup_singleton].
  intros y Hy ->%list_elem_of_singleton. done.
Qed.

Lemma firstOccurrences_filter (P : A → Prop) `{∀ x, Decision (P x)} l :
  filter P (firstOccurrences l) = firstOccurrences (filter P l).
Proof.
  induction l as [|y l IH]; [done|]. simpl.
  destruct (decide (P y)) as [Hy|Hy].
  - rewrite !filter_cons_True by done. simpl. f_equal.
    rewrite <- IH, !list_filter_filter. apply list_filter_iff. tauto.
  - rewrite !filter_cons_False by done. rewrite <- IH, list_filter_filter.
    apply list_filter_iff. intros z. split; [tauto|].
    intros Hz. split; [done|]. by intros ->.
Qed.

Lemma firstOccurrences_elem_of x l : x ∈ firstOccurrences l ↔ x ∈ l.
Proof.
  induction l as [|y l IH]; [done|]. simpl.
  rewrite !elem_of_cons, list_elem_of_filter, IH.
  destruct (decide (x = y)); tauto.
Qed.

Lemma firstOccurrences_NoDup l : NoDup (firstOccurrences l).
Proof.
  induction l as [|y l IH]; simpl; [constructor|].
  apply NoDup_cons. split; [|by apply NoDup_filter].
  rewrite list_elem_of_filter. tauto.
Qed.

Lemma filter_other_id x l : x ∉ l → filter (λ y, y ≠ x) l = l.
Proof.
  induction l as [|z l IH]; [done|].
  intros [Hne Hx]%not_elem_of_cons.
  rewrite filter_cons_True by auto. f_equal. auto.
Qed.

Lemma firstOccurrences_id l : NoDup l → firstOccurrences l = l.
Proof.
  induction 1 as [|y l Hy Hl IH]; [done|]. simpl.
  by rewrite IH, filter_other_id.
Qed.

(** Adding the elements of a list one by one to a set. *)
Lemma foldl_add s l :
  foldl (λ s x, JsSet.add x s) s l
  = s ++ firstOccurrences (filter (λ x, x ∉ s) l).
Proof.
  revert s. induction l as [|x l IH]; intros s; simpl.
  - by rewrite app_nil_r.
  - rewrite IH. destruct (decide (x ∈ s)) as [Hx|Hx].
    + rewrite add_member by done. by rewrite filter_cons_False by auto.
    + rewrite add_fresh by done. rewrite filter_cons_True by done. simpl.
      rewrite <- app_assoc. simpl. do 2 f_equal.
      rewrite firstOccurrences_filter, list_filter_filter. f_equal.
      apply list_filter_iff. intros z.
      rewrite elem_of_app, list_elem_of_singleton. tauto.
Qed.

Lemma foldl_add_empty l :
  foldl (λ s x, JsSet.add x s) JsSet.empty l = firstOccurrences l.
Proof.
  rewrite foldl_add. unfold JsSet.empty. simpl. f_equal.
  induction l as [|x l IH]; [done|].
  rewrite filter_cons_True by apply not_elem_of_nil. by f_equal.
Qed.

Lemma foldl_add_elem_of x s l :
  x ∈ foldl (λ s x, JsSet.add x s) s l ↔ x ∈ s ∨ x ∈ l.
Proof.
  rewrite foldl_add, elem_of_app, firstOccurrences_elem_of, list_elem_of_filter.
  destruct (decide (x ∈ s)); tauto.
Qed.
End JsSetFacts.

(** ** Facts about the lookup and the per-conflict choice *)

Lemma matchingResolution_Some resolutions conflict res :
  matchingResolution resolutions conflict = Some res →
  res ∈ resolutions
  ∧ ConflictResolution.path res = ConflictDetail.path conflict.
Proof.
  intros [Hin Heq]%find_some. split.
  - by apply list_elem_of_In.
  - by apply String.eqb_eq.
Qed.

Lemma matchingResolution_None resolutions conflict :
  matchingResolution resolutions conflict = None ↔
  ∀ res, res ∈ resolutions →
         ConflictResolution.path res ≠ ConflictDetail.path conflict.
Proof.
  unfold matchingResolution. split.
  - intros Hnone res Hin%list_elem_of_In Heq.
    pose proof (find_none _ _ Hnone res Hin) as Hf. simpl in Hf.
    by apply String.eqb_neq in Hf.
  - intros Hall. destruct (find _ resolutions) as [res|] eqn:Hf; [|done].
    apply find_some in Hf as [Hin Heq]. apply String.eqb_eq in Heq.
    apply list_elem_of_In in Hin. by destruct (Hall res Hin).
Qed.

Lemma unresolvedStep_elem_of resolutions conflicts unresolved h :
  h ∈ foldl (unresolvedStep resolutions) unresolved conflicts ↔
  h ∈ unresolved
  ∨ ∃ conflict, conflict ∈ conflicts
                ∧ matchingResolution resolutions conflict = None
                ∧ h ∈ ConflictDetail.options conflict.
Proof.
  revert unresolved.
  induction conflicts as [|c cs IH]; intros unresolved; simpl.
  - split; [auto|]. intros [?|(c & []%elem_of_nil & _)]; done.
  - rewrite IH. unfold unresolvedStep. fold (matchingResolution resolutions c).
    destruct (matchingResolution resolutions c) as [res|] eqn:Hres.
    + split.
      * intros [?|(c' & Hin & Hc')]; [auto|]. right. exists c'.
        split; [by right|done].
      * intros [?|(c' & Hin & Hnone & Hh)]; [auto|]. right.
        apply elem_of_cons in Hin as [->|Hin]; [congruence|eauto].
    + rewrite foldl_add_elem_of. split.
      * intros [[?|Hh]|(c' & Hin & Hc')]; [auto|right..].
        -- exists c. split_and!; [left|done..].
        -- exists c'. split; [by right|done].
      * intros [?|(c' & Hin & Hnone & Hh)]; [auto|].
        apply elem_of_cons in Hin as [->|Hin]; [auto|eauto 6].
Qed.

Section MergeFacts.
Context {V : Type}.
Variable σ : loc → Patch.t V.
Implicit Types (patches : list loc) (conflicts : list ConflictDetail.t)
  (resolutions : ConflictResolutions) (conflict : ConflictDetail.t)
  (customResolutions : CustomConflictResolutions) (p : loc).

Lemma findMatchingPatch_Some patches h p :
  findMatchingPatch σ patches h = Some p →
  p ∈ patches ∧ Patch.hash (σ p) = h.
Proof.
  intros [Hin Heq]%find_some. split.
  - by apply list_elem_of_In.
  - by apply String.eqb_eq.
Qed.

Lemma findMatchingPatch_None patches h :
  findMatchingPatch σ patches h = None ↔
  ∀ p, p ∈ patches → Patch.hash (σ p) ≠ h.
Proof.
  unfold findMatchingPatch. split.
  - intros Hnone p Hp%list_elem_of_In Heq.
    pose proof (find_none _ _ Hnone p Hp) as Hf. simpl in Hf.
    apply String.eqb_neq in Hf. done.
  - intros Hall. destruct (find _ patches) as [p|] eqn:Hf; [|done].
    apply find_some in Hf as [Hin Heq]. apply String.eqb_eq in Heq.
    apply list_elem_of_In in Hin. by destruct (Hall p Hin).
Qed.

(** A patch returned by the lookup is the one the lookup returns for its
    own hash. *)
Lemma findMatchingPatch_own patches h p :
  findMatchingPatch σ patches h = Some p →
  findMatchingPatch σ patches (Patch.hash (σ p)) = Some p.
Proof. intros Hf. by destruct (findMatchingPatch_Some _ _ _ Hf) as [_ ->]. Qed.

(** Two patches returned by the lookup with equal contents are the same
    object. *)
Lemma findMatchingPatch_inj patches h1 h2 p1 p2 :
  findMatchingPatch σ patches h1 = Some p1 →
  findMatchingPatch σ patches h2 = Some p2 →
  σ p1 = σ p2 → p1 = p2.
Proof.
  intros H1%findMatchingPatch_own H2%findMatchingPatch_own Heq.
  rewrite Heq in H1. congruence.
Qed.

Lemma resolveStep_default patches included conflict :
  (if bool_decide (0 < length (ConflictDetail.options conflict)) then
     match ConflictDetail.options conflict !! 0 with
     | Some defaultHash =>
         match findMatchingPatch σ patches defaultHash with
         | Some matchingPatch => JsSet.add matchingPatch included
         | None => included
         end
     | None => included
     end
   else included)
  = match defaultSelection σ patches conflict with
    | Some p => JsSet.add p included
    | None => included
    end.
Proof.
  unfold defaultSelection.
  destruct (ConflictDetail.options conflict) as [|h0 rest]; [done|].
  rewrite bool_decide_eq_true_2 by (simpl; lia). done.
Qed.

(** The callback adds the chosen patch, if there is one. *)
Lemma resolveStep_selection patches resolutions included conflict :
  resolveStep σ patches resolutions included conflict
  = match selection σ patches resolutions conflict with
    | Some p => JsSet.add p included
    | None => included
    end.
Proof.
  unfold resolveStep, selection, matchingResolution. cbv zeta.
  rewrite resolveStep_default.
  destruct (find _ resolutions) as [res|]; [|done].
  by destruct (includes _ _).
Qed.

Lemma defaultSelection_Some patches conflict p :
  defaultSelection σ patches conflict = Some p →
  ∃ h, h ∈ ConflictDetail.options conflict
       ∧ findMatchingPatch σ patches h = Some p.
Proof.
  unfold defaultSelection.
  destruct (ConflictDetail.options conflict) as [|h0 rest]; [done|].
  intros Hf. exists h0. split; [left|done].
Qed.

Lemma selection_Some patches resolutions conflict p :
  selection σ patches resolutions conflict = Some p →
  ∃ h, h ∈ ConflictDetail.options conflict
       ∧ findMatchingPatch σ patches h = Some p.
Proof.
  unfold selection.
  destruct (matchingResolution _ _) as [res|]; [|apply defaultSelection_Some].
  unfold includes. case_bool_decide as Hin; [|apply defaultSelection_Some].
  intros Hf. eauto.
Qed.

Lemma foldl_resolveStep patches resolutions conflicts included :
  foldl (resolveStep σ patches resolutions) included conflicts
  = foldl (λ s x, JsSet.add x s) included
          (omap (selection σ patches resolutions) conflicts).
Proof.
  revert included. induction conflicts as [|c cs IH]; intros included; [done|].
  simpl. rewrite IH, resolveStep_selection.
  by destruct (selection σ patches resolutions c).
Qed.

(** The set built by the [forEach]: the chosen patches, each once, in
    the order of the conflicts that first chose them. *)
Lemma includedPatches_selection patches conflicts resolutions :
  includedPatches σ patches conflicts resolutions
  = firstOccurrences (omap (selection σ patches resolutions) conflicts).
Proof.
  unfold includedPatches. by rewrite foldl_resolveStep, foldl_add_empty.
Qed.

Lemma includedPatches_elem_of patches conflicts resolutions p :
  p ∈ includedPatches σ patches conflicts resolutions ↔
  ∃ conflict, conflict ∈ conflicts
              ∧ selection σ patches resolutions conflict = Some p.
Proof.
  by rewrite includedPatches_selection, firstOccurrences_elem_of,
    list_elem_of_omap.
Qed.

Lemma includedPatches_input patches conflicts resolutions p :
  p ∈ includedPatches σ patches conflicts resolutions → p ∈ patches.
Proof.
  intros (c & _ & Hsel)%includedPatches_elem_of.
  apply selection_Some in Hsel as (h & _ & Hf).
  by apply findMatchingPatch_Some in Hf as [? _].
Qed.

(** The three segments of the result when there are conflicts. *)
Lemma resolveConflicts_conflicts patches conflicts resolutions customResolutions :
  conflicts ≠ [] →
  resolveConflicts σ patches conflicts resolutions customResolutions
  = filter (λ p, pathOf σ p ∉ ConflictDetail.path <$> conflicts) patches
      ++ includedPatches σ patches conflicts resolutions
      ++ (CustomConflictResolution.patch <$> customResolutions).
Proof.
  intros Hne. unfold resolveConflicts.
  rewrite bool_decide_eq_false_2 by (by destruct conflicts).
  cbv zeta. unfold JsSet.toArray. f_equal; [|f_equal].
  - apply list_filter_iff. intros p. unfold pathOf.
    by rewrite elem_of_list_to_set.
  - destruct customResolutions; [done|].
    by rewrite bool_decide_eq_true_2 by (simpl; lia).
Qed.
End MergeFacts.

(** ** Properties of the merge *)

Section MergeProperties.
Context {V : Type}.
Variable σ : loc → Patch.t V.
Implicit Types (patches : list loc) (conflicts : list ConflictDetail.t)
  (resolutions : ConflictResolutions) (conflict : ConflictDetail.t)
  (customResolutions : CustomConflictResolutions) (p : loc).

(** C2: without conflicts [resolveConflicts] returns the input patches as
    they are (same references, same order, same multiplicity), whatever
    the resolutions and the custom resolutions. *)
Theorem resolveConflicts_no_conflicts patches resolutions customResolutions :
  resolveConflicts σ patches [] resolutions customResolutions = patches.
Proof. reflexivity. Qed.

(** C6: with conflicts, the result is the non-conflicting input patches in
    input order, then the chosen patches in the order of the conflicts
    that first chose them, each once, then the patches of the custom
    resolutions in the order given.  Chosen patches with equal contents
    are the same object, so the middle segment has no two patches with the
    same contents; the custom patches are appended as they are. *)
Theorem resolveConflicts_segments patches conflicts resolutions customResolutions :
  conflicts ≠ [] →
  resolveConflicts σ patches conflicts resolutions customResolutions
  = filter (λ p, pathOf σ p ∉ ConflictDetail.path <$> conflicts) patches
      ++ firstOccurrences (omap (selection σ patches resolutions) conflicts)
      ++ (CustomConflictResolution.patch <$> customResolutions)
  ∧ (∀ p q, p ∈ omap (selection σ patches resolutions) conflicts →
            q ∈ omap (selection σ patches resolutions) conflicts →
            σ p = σ q → p = q)
  ∧ NoDup (σ <$> firstOccurrences
                   (omap (selection σ patches resolutions) conflicts)).
Proof.
  intros Hne.
  assert (∀ p q, p ∈ omap (selection σ patches resolutions) conflicts →
                 q ∈ omap (selection σ patches resolutions) conflicts →
                 σ p = σ q → p = q) as Hinj.
  { intros p q (c1 & _ & H1)%list_elem_of_omap (c2 & _ & H2)%list_elem_of_omap.
    apply selection_Some in H1 as (h1 & _ & H1).
    apply selection_Some in H2 as (h2 & _ & H2).
    by apply (findMatchingPatch_inj σ patches h1 h2). }
  split_and!; [|done|].
  - by rewrite resolveConflicts_conflicts, includedPatches_selection.
  - apply NoDup_fmap_2_strong; [|apply firstOccurrences_NoDup].
    intros p q Hp Hq. rewrite firstOccurrences_elem_of in Hp, Hq.
    by apply Hinj.
Qed.

(** C10: with conflicts, an output patch at the path of a conflict was
    chosen for some conflict or is the patch of a custom resolution, and
    an input patch at the path of a conflict that is neither is not in the
    output. *)
Theorem resolveConflicts_conflict_paths patches conflicts resolutions customResolutions :
  conflicts ≠ [] →
  (∀ p, p ∈ resolveConflicts σ patches conflicts resolutions customResolutions →
        pathOf σ p ∈ ConflictDetail.path <$> conflicts →
        (∃ conflict, conflict ∈ conflicts
                     ∧ selection σ patches resolutions conflict = Some p)
        ∨ p ∈ CustomConflictResolution.patch <$> customResolutions)
  ∧ (∀ p, p ∈ patches →
          pathOf σ p ∈ ConflictDetail.path <$> conflicts →
          (∀ conflict, conflict ∈ conflicts →
                       selection σ patches resolutions conflict ≠ Some p) →
          p ∉ CustomConflictResolution.patch <$> customResolutions →
          p ∉ resolveConflicts σ patches conflicts resolutions customResolutions).
Proof.
  intros Hne. rewrite resolveConflicts_conflicts by done.
  assert (∀ p,
    p ∈ filter (λ p, pathOf σ p ∉ ConflictDetail.path <$> conflicts) patches
        ++ includedPatches σ patches conflicts resolutions
        ++ (CustomConflictResolution.patch <$> customResolutions) →
    pathOf σ p ∈ ConflictDetail.path <$> conflicts →
    (∃ conflict, conflict ∈ conflicts
                 ∧ selection σ patches resolutions conflict = Some p)
    ∨ p ∈ CustomConflictResolution.patch <$> customResolutions) as Hout.
  { intros p Hp Hpath. rewrite !elem_of_app in Hp.
    destruct Hp as [Hp|[Hp|Hp]]; [|left|by right].
    - apply list_elem_of_filter in Hp as [Hp _]. done.
    - by apply includedPatches_elem_of. }
  split; [done|].
  intros p _ Hpath Hsel Hcustom Hp.
  destruct (Hout p Hp Hpath) as [(c & Hc & Hs)|?]; [|done].
  by apply (Hsel c).
Qed.

(** C3: when the resolution consulted for a conflict selects a hash that is
    not among the conflict's options and the conflict has options, the
    callback adds the patch looked up for the first option, if there is
    one; that patch is then in the result, and it is not a patch with the
    selected hash.  The result is the one in which this conflict chooses
    the patch of its first option, at its place among the choices of the
    other conflicts.  The patch named by the resolution is not chosen in its
    stead: when it is at a conflict path, it is in the result only if
    another conflict chooses it or a custom resolution carries it. *)
Theorem resolveConflicts_invalid_resolution
    patches conflicts resolutions customResolutions conflict res first rest :
  conflict ∈ conflicts →
  matchingResolution resolutions conflict = Some res →
  ConflictResolution.selectedHash res ∉ ConflictDetail.options conflict →
  ConflictDetail.options conflict = first :: rest →
  (∀ included,
     resolveStep σ patches resolutions included conflict
     = match findMatchingPatch σ patches first with
       | Some p => JsSet.add p included
       | None => included
       end)
  ∧ (∀ q, q ∈ patches → Patch.hash (σ q) = first →
          is_Some (findMatchingPatch σ patches first))
  ∧ (∀ p, findMatchingPatch σ patches first = Some p →
          p ∈ resolveConflicts σ patches conflicts resolutions customResolutions
          ∧ Patch.hash (σ p) = first
          ∧ Patch.hash (σ p) ≠ ConflictResolution.selectedHash res)
  ∧ (∀ before after,
       conflicts = before ++ conflict :: after →
       resolveConflicts σ patches conflicts resolutions customResolutions
       = filter (λ p, pathOf σ p ∉ ConflictDetail.path <$> conflicts) patches
           ++ firstOccurrences
                (omap (selection σ patches resolutions) before
                   ++ match findMatchingPatch σ patches first with
                      | Some p => [p]
                      | None => []
                      end
                   ++ omap (selection σ patches resolutions) after)
           ++ (CustomConflictResolution.patch <$> customResolutions))
  ∧ (∀ before after named,
       conflicts = before ++ conflict :: after →
       findMatchingPatch σ patches (ConflictResolution.selectedHash res)
       = Some named →
       pathOf σ named ∈ ConflictDetail.path <$> conflicts →
       (∀ other, other ∈ before ++ after →
                 selection σ patches resolutions other ≠ Some named) →
       named ∉ CustomConflictResolution.patch <$> customResolutions →
       named ∉ resolveConflicts σ patches conflicts resolutions
                                customResolutions).
Proof.
  intros Hc Hres Hnotin Hopts.
  assert (selection σ patches resolutions conflict
          = findMatchingPatch σ patches first) as Hsel.
  { unfold selection, includes, defaultSelection.
    by rewrite Hres, bool_decide_eq_false_2, Hopts by done. }
  assert (∀ before after,
    conflicts = before ++ conflict :: after →
    resolveConflicts σ patches conflicts resolutions customResolutions
    = filter (λ p, pathOf σ p ∉ ConflictDetail.path <$> conflicts) patches
        ++ firstOccurrences
             (omap (selection σ patches resolutions) before
                ++ match findMatchingPatch σ patches first with
                   | Some p => [p]
                   | None => []
                   end
                ++ omap (selection σ patches resolutions) after)
        ++ (CustomConflictResolution.patch <$> customResolutions)) as Hresult.
  { intros before after Hsplit.
    rewrite resolveConflicts_conflicts by (by destruct Hc).
    rewrite includedPatches_selection. do 3 f_equal.
    rewrite Hsplit, omap_app. f_equal. csimpl. rewrite Hsel.
    by destruct (findMatchingPatch σ patches first). }
  split_and!.
  - intros included. by rewrite resolveStep_selection, Hsel.
  - intros q Hq Hhash.
    destruct (findMatchingPatch σ patches first) as [p|] eqn:Hp; [by exists p|].
    by destruct (proj1 (findMatchingPatch_None _ _ _) Hp q Hq).
  - intros p Hp. destruct (findMatchingPatch_Some _ _ _ _ Hp) as [_ Hhash].
    split_and!; [|done|].
    + rewrite resolveConflicts_conflicts by (by destruct Hc).
      rewrite !elem_of_app. right; left.
      apply includedPatches_elem_of. exists conflict. by rewrite Hsel.
    + rewrite Hhash. intros Heq. apply Hnotin. rewrite Hopts, <- Heq. left.
  - done.
  - intros before after named Hsplit Hnamed Hpath Hothers Hcustom.
    rewrite (Hresult before after Hsplit).
    rewrite !elem_of_app, firstOccurrences_elem_of, !elem_of_app.
    intros [Hin|[[Hin|[Hin|Hin]]|Hin]].
    + by apply list_elem_of_filter in Hin as [? _].
    + apply list_elem_of_omap in Hin as (other & Hother & Hchosen).
      apply (Hothers other); [|done]. apply elem_of_app. by left.
    + destruct (findMatchingPatch σ patches first) as [p|] eqn:Hp;
        [|by apply elem_of_nil in Hin].
      apply list_elem_of_singleton in Hin as ->.
      apply findMatchingPatch_Some in Hp as [_ Hp].
      apply findMatchingPatch_Some in Hnamed as [_ Hnamed].
      apply Hnotin. rewrite Hopts, <- Hnamed, Hp. left.
    + apply list_elem_of_omap in Hin as (other & Hother & Hchosen).
      apply (Hothers other); [|done]. apply elem_of_app. by right.
    + done.
Qed.

(** C7: a conflict whose consulted resolution selects one of its options
    that is the hash of no input patch, and a conflict without options,
    contribute nothing: the callback leaves the set as it is (the
    first option is not tried), and the result is the one computed from
    the chosen patches of the other conflicts.  The merge is a total
    function: there is no failure to report. *)
Theorem resolveConflicts_omission patches resolutions conflict :
  (∃ res, matchingResolution resolutions conflict = Some res
          ∧ ConflictResolution.selectedHash res ∈ ConflictDetail.options conflict
          ∧ ∀ p, p ∈ patches →
                 Patch.hash (σ p) ≠ ConflictResolution.selectedHash res)
  ∨ ConflictDetail.options conflict = [] →
  (∀ included,
     resolveStep σ patches resolutions included conflict = included)
  ∧ (∀ before after customResolutions,
       resolveConflicts σ patches (before ++ conflict :: after)
                        resolutions customResolutions
       = filter (λ p, pathOf σ p
                      ∉ ConflictDetail.path <$> before ++ conflict :: after)
                patches
           ++ includedPatches σ patches (before ++ after) resolutions
           ++ (CustomConflictResolution.patch <$> customResolutions)).
Proof.
  intros Hcase.
  assert (selection σ patches resolutions conflict = None) as Hsel.
  { unfold selection, includes.
    destruct Hcase as [(res & -> & Hin & Hmiss)|Hopts].
    - rewrite bool_decide_eq_true_2 by done.
      by apply findMatchingPatch_None.
    - unfold defaultSelection. rewrite Hopts.
      destruct (matchingResolution _ _); [|done].
      by rewrite bool_decide_eq_false_2 by apply not_elem_of_nil. }
  split.
  - intros included. by rewrite resolveStep_selection, Hsel.
  - intros before after customResolutions.
    rewrite resolveConflicts_conflicts by (by destruct before).
    rewrite !includedPatches_selection, !omap_app. simpl.
    by rewrite Hsel.
Qed.

(** C4: with patches and conflicts, a hash is reported as unresolved
    exactly when it is an option of a conflict whose path is the path of no
    resolution; this holds for the first option too, although the merge
    puts the patch of that option in the result. *)
Theorem generateResolvedPatch_unresolved
    (groups : list (list loc)) conflicts resolutions customResolutions :
  concat groups ≠ [] →
  conflicts ≠ [] →
  (∀ h,
     h ∈ Result.unresolvedConflicts
           (generateResolvedPatch σ groups conflicts resolutions customResolutions)
     ↔ ∃ conflict,
         conflict ∈ conflicts
         ∧ (∀ res, res ∈ resolutions →
                   ConflictResolution.path res ≠ ConflictDetail.path conflict)
         ∧ h ∈ ConflictDetail.options conflict)
  ∧ (∀ conflict first rest p,
       conflict ∈ conflicts →
       (∀ res, res ∈ resolutions →
               ConflictResolution.path res ≠ ConflictDetail.path conflict) →
       ConflictDetail.options conflict = first :: rest →
       findMatchingPatch σ (concat groups) first = Some p →
       first ∈ Result.unresolvedConflicts
                 (generateResolvedPatch σ groups conflicts resolutions
                                        customResolutions)
       ∧ p ∈ Result.resolvedPatches
               (generateResolvedPatch σ groups conflicts resolutions
                                      customResolutions)).
Proof.
  intros Hpatches Hconflicts. unfold generateResolvedPatch. cbv zeta.
  rewrite bool_decide_eq_false_2 by (by destruct (concat groups)).
  rewrite bool_decide_eq_false_2 by (by destruct conflicts).
  unfold JsSet.toArray, JsSet.empty. simpl.
  assert (∀ h, h ∈ foldl (unresolvedStep resolutions) [] conflicts ↔
    ∃ conflict, conflict ∈ conflicts
      ∧ (∀ res, res ∈ resolutions →
                ConflictResolution.path res ≠ ConflictDetail.path conflict)
      ∧ h ∈ ConflictDetail.options conflict) as Hiff.
  { intros h. rewrite unresolvedStep_elem_of. split.
    - intros [[]%elem_of_nil|(c & Hc & Hnone & Hh)].
      exists c. by rewrite <- matchingResolution_None.
    - intros (c & Hc & Hnone & Hh). right. exists c.
      by rewrite matchingResolution_None. }
  split; [done|].
  intros conflict first rest p Hc Hnone Hopts Hp. split.
  - apply Hiff. exists conflict. split_and!; [done..|].
    rewrite Hopts. left.
  - rewrite resolveConflicts_conflicts by done.
    rewrite !elem_of_app. right; left.
    apply includedPatches_elem_of. exists conflict. split; [done|].
    unfold selection, defaultSelection.
    apply matchingResolution_None in Hnone. by rewrite Hnone, Hopts.
Qed.

(** C8: without patches in the groups the result is empty on both sides,
    whatever the conflicts and resolutions; with patches and without
    conflicts every patch is resolved and no hash is unresolved. *)
Theorem generateResolvedPatch_trivial
    (groups : list (list loc)) conflicts resolutions customResolutions :
  (concat groups = [] →
   generateResolvedPatch σ groups conflicts resolutions customResolutions
   = Result.mk [] [])
  ∧ (concat groups ≠ [] →
     generateResolvedPatch σ groups [] resolutions customResolutions
     = Result.mk [] (concat groups)).
Proof.
  unfold generateResolvedPatch. cbv zeta. split.
  - by intros ->.
  - intros Hne. by rewrite bool_decide_eq_false_2 by (by destruct (concat groups)).
Qed.
End MergeProperties.

(** C5: [initializeResolutions] gives one resolution per conflict that has
    options, selecting its first option, in the order of the conflicts, and
    none for a conflict without options. *)
Theorem initializeResolutions_default (conflicts : list ConflictDetail.t) :
  initializeResolutions conflicts = defaultResolutions conflicts.
Proof.
  unfold initializeResolutions.
  induction conflicts as [|c cs IH]; [done|]. simpl.
  destruct (ConflictDetail.options c) as [|first rest] eqn:Hopts.
  - rewrite filter_cons_False by (rewrite Hopts; simpl; lia). done.
  - rewrite filter_cons_True by (rewrite Hopts; simpl; lia).
    rewrite fmap_cons, IH. unfold firstOption. by rewrite Hopts.
Qed.

(** ** Paths in the result, and feeding the result back *)

Lemma NoDup_fmap_elem_inj {A B} (f : A → B) (l : list A) x y :
  NoDup (f <$> l) → x ∈ l → y ∈ l → f x = f y → x = y.
Proof.
  induction l as [|z l IH]; [by intros _ ?%elem_of_nil|].
  rewrite fmap_cons. intros [Hz Hl]%NoDup_cons.
  intros [->|Hx]%elem_of_cons [->|Hy]%elem_of_cons Heq; [done| | |by apply IH].
  - destruct Hz. rewrite Heq. by apply list_elem_of_fmap_2.
  - destruct Hz. rewrite <- Heq. by apply list_elem_of_fmap_2.
Qed.

Lemma filter_all {A} (P : A → Prop) `{∀ x, Decision (P x)} (l : list A) :
  (∀ x, x ∈ l → P x) → filter P l = l.
Proof.
  induction l as [|x l IH]; [done|]. intros HP.
  rewrite filter_cons_True by (apply HP; left). f_equal.
  apply IH. intros y Hy. apply HP. by right.
Qed.

Lemma omap_ext_elem_of {A B} (f g : A → option B) (l : list A) :
  (∀ x, x ∈ l → f x = g x) → omap f l = omap g l.
Proof.
  induction l as [|x l IH]; [done|]. intros Hfg. csimpl.
  rewrite (Hfg x) by left. rewrite IH; [done|].
  intros y Hy. apply Hfg. by right.
Qed.

Section Feedback.
Context {V : Type}.
Variable σ : loc → Patch.t V.
Implicit Types (patches : list loc) (conflicts : list ConflictDetail.t)
  (resolutions : ConflictResolutions) (conflict : ConflictDetail.t)
  (customResolutions : CustomConflictResolutions) (p : loc).

Lemma readBack_path patches resolutions conflict res :
  readBack σ patches resolutions conflict = Some res →
  ConflictResolution.path res = ConflictDetail.path conflict.
Proof.
  unfold readBack. destruct (selection _ _ _ _); [|done].
  by intros [= <-].
Qed.

Lemma matchingResolution_readBack_absent patches resolutions conflicts conflict :
  ConflictDetail.path conflict ∉ ConflictDetail.path <$> conflicts →
  matchingResolution (omap (readBack σ patches resolutions) conflicts) conflict
  = None.
Proof.
  intros Hnotin. apply matchingResolution_None.
  intros res (c & Hc & Hres)%list_elem_of_omap Heq.
  apply readBack_path in Hres. apply Hnotin.
  rewrite <- Heq, Hres. by apply list_elem_of_fmap_2.
Qed.

(** With pairwise distinct conflict paths, the resolution consulted for a
    conflict after the feedback is the one read back for that conflict. *)
Lemma matchingResolution_readBack patches resolutions conflicts conflict :
  NoDup (ConflictDetail.path <$> conflicts) →
  conflict ∈ conflicts →
  matchingResolution (omap (readBack σ patches resolutions) conflicts) conflict
  = readBack σ patches resolutions conflict.
Proof.
  induction conflicts as [|c cs IH]; [by intros _ ?%elem_of_nil|].
  rewrite fmap_cons. intros [Hc Hcs]%NoDup_cons Hin. simpl.
  apply elem_of_cons in Hin as [->|Hin].
  - destruct (readBack σ patches resolutions c) as [res|] eqn:Hres.
    + unfold matchingResolution. simpl.
      apply readBack_path in Hres as Hpath.
      by rewrite (proj2 (String.eqb_eq _ _) Hpath).
    + by apply matchingResolution_readBack_absent.
  - destruct (readBack σ patches resolutions c) as [res|] eqn:Hres; [|by apply IH].
    unfold matchingResolution. simpl.
    apply readBack_path in Hres as Hpath.
    rewrite (proj2 (String.eqb_neq _ _)); [by apply IH|].
    rewrite Hpath. intros Heq. apply Hc. rewrite Heq.
    by apply list_elem_of_fmap_2.
Qed.

Lemma selection_feedback patches conflicts resolutions conflict :
  NoDup (ConflictDetail.path <$> conflicts) →
  (∀ conflict res,
     conflict ∈ conflicts →
     matchingResolution resolutions conflict = Some res →
     ConflictResolution.selectedHash res ∈ ConflictDetail.options conflict →
     is_Some (findMatchingPatch σ patches (ConflictResolution.selectedHash res))) →
  conflict ∈ conflicts →
  selection σ patches (feedbackResolutions σ patches conflicts resolutions) conflict
  = selection σ patches resolutions conflict.
Proof.
  intros Hnodup Hfound Hin.
  unfold selection at 1. unfold feedbackResolutions.
  rewrite matchingResolution_readBack by done. unfold readBack.
  destruct (selection σ patches resolutions conflict) as [p|] eqn:Hsel; simpl.
  - apply selection_Some in Hsel as (h & Hh & Hp).
    destruct (findMatchingPatch_Some _ _ _ _ Hp) as [_ Hhash].
    unfold includes. rewrite Hhash, bool_decide_eq_true_2 by done. done.
  - revert Hsel. unfold selection.
    destruct (matchingResolution resolutions conflict) as [res|] eqn:Hres; [|done].
    unfold includes. case_bool_decide as Hopt; [|done].
    intros Hnone. destruct (Hfound conflict res Hin Hres Hopt) as [p Hp].
    congruence.
Qed.

(** C9, amended: when the conflicts have pairwise distinct paths and every
    consulted resolution that selects one of its conflict's options names
    an input patch, merging again with the resolutions read back from the
    merge (for each conflict, the hash of the patch chosen for it) gives
    the same result. *)
Theorem resolveConflicts_feedback patches conflicts resolutions customResolutions :
  NoDup (ConflictDetail.path <$> conflicts) →
  (∀ conflict res,
     conflict ∈ conflicts →
     matchingResolution resolutions conflict = Some res →
     ConflictResolution.selectedHash res ∈ ConflictDetail.options conflict →
     is_Some (findMatchingPatch σ patches (ConflictResolution.selectedHash res))) →
  resolveConflicts σ patches conflicts
    (feedbackResolutions σ patches conflicts resolutions) customResolutions
  = resolveConflicts σ patches conflicts resolutions customResolutions.
Proof.
  intros Hnodup Hfound.
  destruct (decide (conflicts = [])) as [->|Hne]; [done|].
  rewrite !resolveConflicts_conflicts, !includedPatches_selection by done.
  do 3 f_equal. apply omap_ext_elem_of.
  intros c Hc. by apply selection_feedback.
Qed.

(** C1, amended: when the conflicts have pairwise distinct paths, every
    option of a conflict that is the hash of an input patch is looked up
    to a patch at that conflict's path, the input patches outside the
    conflict paths have pairwise distinct paths, and the custom patches
    have pairwise distinct paths that are the path of no input patch, no
    two patches of the result have the same path. *)
Theorem resolveConflicts_distinct_paths
    patches conflicts resolutions customResolutions :
  NoDup (ConflictDetail.path <$> conflicts) →
  (∀ conflict h p,
     conflict ∈ conflicts →
     h ∈ ConflictDetail.options conflict →
     findMatchingPatch σ patches h = Some p →
     pathOf σ p = ConflictDetail.path conflict) →
  NoDup (pathOf σ
           <$> filter (λ p, pathOf σ p ∉ ConflictDetail.path <$> conflicts)
                      patches) →
  NoDup (pathOf σ <$> (CustomConflictResolution.patch <$> customResolutions)) →
  (∀ custom p,
     custom ∈ customResolutions → p ∈ patches →
     pathOf σ (CustomConflictResolution.patch custom) ≠ pathOf σ p) →
  NoDup (pathOf σ
           <$> resolveConflicts σ patches conflicts resolutions customResolutions).
Proof.
  intros Hconf Hopt Hnon Hcust Hfresh.
  destruct (decide (conflicts = [])) as [->|Hne].
  { change (resolveConflicts σ patches [] resolutions customResolutions)
      with patches.
    rewrite filter_all in Hnon; [done|].
    intros p _. apply not_elem_of_nil. }
  assert (∀ p, p ∈ includedPatches σ patches conflicts resolutions →
               ∃ conflict, conflict ∈ conflicts
                 ∧ selection σ patches resolutions conflict = Some p
                 ∧ pathOf σ p = ConflictDetail.path conflict) as Hincl.
  { intros p (c & Hc & Hsel)%includedPatches_elem_of.
    exists c. split_and!; [done..|].
    apply selection_Some in Hsel as (h & Hh & Hp). eauto. }
  rewrite resolveConflicts_conflicts by done.
  rewrite !fmap_app. apply NoDup_app. split_and!; [done| |].
  - intros x (p & -> & [Hpath Hp]%list_elem_of_filter)%list_elem_of_fmap.
    rewrite elem_of_app.
    intros [(q & Hq & Hin)%list_elem_of_fmap|(q & Hq & Hin)%list_elem_of_fmap].
    + apply Hincl in Hin as (c & Hc & _ & Hqc). apply Hpath.
      rewrite Hq, Hqc. by apply list_elem_of_fmap_2.
    + apply list_elem_of_fmap in Hin as (custom & -> & Hin).
      by apply (Hfresh custom p).
  - apply NoDup_app. split_and!; [| |done].
    + apply NoDup_fmap_2_strong.
      * intros p q (c1 & Hc1 & Hs1 & Hp1)%Hincl (c2 & Hc2 & Hs2 & Hp2)%Hincl Heq.
        assert (c1 = c2) as ->; [|congruence].
        apply (NoDup_fmap_elem_inj ConflictDetail.path conflicts); [done..|].
        congruence.
      * rewrite includedPatches_selection. apply firstOccurrences_NoDup.
    + intros x (p & -> & Hp)%list_elem_of_fmap
               (q & Hq & (custom & -> & Hin)%list_elem_of_fmap)%list_elem_of_fmap.
      apply (Hfresh custom p); [done| |done].
      by apply includedPatches_input in Hp.
Qed.
End Feedback.


(** ** Further properties of the lookup and the merge *)

Lemma matchingResolution_app resolutions1 resolutions2 conflict :
  matchingResolution (resolutions1 ++ resolutions2) conflict
  = match matchingResolution resolutions1 conflict with
    | Some res => Some res
    | None => matchingResolution resolutions2 conflict
    end.
Proof.
  unfold matchingResolution.
  induction resolutions1 as [|r rs IH]; [done|]. simpl.
  by destruct (String.eqb _ _).
Qed.

Lemma matchingResolution_cons_other res resolutions conflict :
  ConflictResolution.path res ≠ ConflictDetail.path conflict →
  matchingResolution (res :: resolutions) conflict
  = matchingResolution resolutions conflict.
Proof.
  intros Hne. unfold matchingResolution. simpl.
  by rewrite (proj2 (String.eqb_neq _ _) Hne).
Qed.

Lemma matchingResolution_cons_same res resolutions conflict :
  ConflictResolution.path res = ConflictDetail.path conflict →
  matchingResolution (res :: resolutions) conflict = Some res.
Proof.
  intros Heq. unfold matchingResolution. simpl.
  by rewrite (proj2 (String.eqb_eq _ _) Heq).
Qed.

Lemma firstOccurrences_length {A} `{EqDecision A} (l : list A) :
  length (firstOccurrences l) ≤ length l.
Proof.
  induction l as [|x l IH]; simpl; [done|].
  pose proof (length_filter (λ y, y ≠ x) (firstOccurrences l)). lia.
Qed.

Lemma omap_length_le {A B} (f : A → option B) (l : list A) :
  length (omap f l) ≤ length l.
Proof.
  induction l as [|x l IH]; [done|]. csimpl.
  destruct (f x); simpl; lia.
Qed.

Lemma nil_no_elem {A} (l : list A) : (∀ x, x ∉ l) → l = [].
Proof. destruct l as [|x l]; [done|]. intros H. destruct (H x). left. Qed.

Section MergeMore.
Context {V : Type}.
Variable σ : loc → Patch.t V.
Implicit Types (patches : list loc) (conflicts : list ConflictDetail.t)
  (resolutions : ConflictResolutions) (conflict : ConflictDetail.t)
  (customResolutions : CustomConflictResolutions) (p : loc).

(** The merge depends on the resolutions only through the resolution
    consulted for each conflict. *)
Lemma resolveConflicts_matching_ext
    patches conflicts resolutions1 resolutions2 customResolutions :
  (∀ conflict, conflict ∈ conflicts →
     matchingResolution resolutions1 conflict
     = matchingResolution resolutions2 conflict) →
  resolveConflicts σ patches conflicts resolutions1 customResolutions
  = resolveConflicts σ patches conflicts resolutions2 customResolutions.
Proof.
  intros Hsame. destruct (decide (conflicts = [])) as [->|Hne]; [done|].
  rewrite !resolveConflicts_conflicts, !includedPatches_selection by done.
  do 3 f_equal. apply omap_ext_elem_of. intros c Hc.
  unfold selection. by rewrite (Hsame c Hc).
Qed.

Lemma customPatches_guard customResolutions :
  (if bool_decide (0 < length customResolutions)
   then CustomConflictResolution.patch <$> customResolutions
   else [])
  = CustomConflictResolution.patch <$> customResolutions.
Proof.
  destruct customResolutions; [done|].
  by rewrite bool_decide_eq_true_2 by (simpl; lia).
Qed.

Lemma selection_no_patches resolutions conflict :
  selection σ [] resolutions conflict = None.
Proof.
  unfold selection, defaultSelection.
  destruct (matchingResolution _ _) as [res|].
  - destruct (includes _ _); [done|].
    by destruct (ConflictDetail.options conflict).
  - by destruct (ConflictDetail.options conflict).
Qed.

(** X1: the lookup returns the first patch of the array with the given hash,
    and nothing exactly when no patch of the array has it. *)
Theorem findMatchingPatch_first patches h :
  match findMatchingPatch σ patches h with
  | Some p =>
      ∃ i, patches !! i = Some p
           ∧ Patch.hash (σ p) = h
           ∧ ∀ j q, j < i → patches !! j = Some q → Patch.hash (σ q) ≠ h
  | None => ∀ q, q ∈ patches → Patch.hash (σ q) ≠ h
  end.
Proof.
  unfold findMatchingPatch.
  induction patches as [|x patches IH]; simpl.
  - intros q []%elem_of_nil.
  - destruct (String.eqb_spec (Patch.hash (σ x)) h) as [Heq|Hne].
    + exists 0. split_and!; [done..|]. intros j q Hj. lia.
    + destruct (find _ patches) as [p|].
      * destruct IH as (i & Hi & Hhash & Hfirst).
        exists (S i). split_and!; [done..|].
        intros [|j] q Hj; simpl.
        -- by intros [= <-].
        -- apply Hfirst. lia.
      * intros q [->|Hq]%elem_of_cons; [done|by apply IH].
Qed.

(** X2: every patch of the result is a patch of the input array or the patch of
    a custom resolution. *)
Theorem resolveConflicts_sources
    patches conflicts resolutions customResolutions p :
  p ∈ resolveConflicts σ patches conflicts resolutions customResolutions →
  p ∈ patches ∨ p ∈ CustomConflictResolution.patch <$> customResolutions.
Proof.
  destruct (decide (conflicts = [])) as [->|Hne]; [by left|].
  rewrite resolveConflicts_conflicts by done. rewrite !elem_of_app.
  intros [Hp|[Hp|Hp]]; [left|left|by right].
  - by apply list_elem_of_filter in Hp as [_ Hp].
  - by apply includedPatches_input in Hp.
Qed.

(** X3: when the resolution consulted for a conflict selects one of the
    conflict's options and an input patch has that hash, the callback adds
    the first such patch, whatever the order of the options, and the patch
    is in the result. *)
Theorem resolveConflicts_valid_resolution
    patches conflicts resolutions customResolutions conflict res p :
  conflict ∈ conflicts →
  matchingResolution resolutions conflict = Some res →
  ConflictResolution.selectedHash res ∈ ConflictDetail.options conflict →
  findMatchingPatch σ patches (ConflictResolution.selectedHash res) = Some p →
  (∀ included,
     resolveStep σ patches resolutions included conflict
     = JsSet.add p included)
  ∧ p ∈ resolveConflicts σ patches conflicts resolutions customResolutions
  ∧ Patch.hash (σ p) = ConflictResolution.selectedHash res.
Proof.
  intros Hc Hres Hin Hp.
  assert (selection σ patches resolutions conflict = Some p) as Hsel.
  { unfold selection, includes.
    by rewrite Hres, bool_decide_eq_true_2 by done. }
  split_and!.
  - intros included. by rewrite resolveStep_selection, Hsel.
  - rewrite resolveConflicts_conflicts by (by destruct Hc).
    rewrite !elem_of_app. right; left.
    apply includedPatches_elem_of. eauto.
  - by apply findMatchingPatch_Some in Hp as [_ ?].
Qed.

(** X4: a resolution that comes after another resolution with the same path is
    never consulted: removing it leaves the result as it is. *)
Theorem resolveConflicts_shadowed_resolution
    patches conflicts (before after : ConflictResolutions) shadowed
    customResolutions :
  (∃ res, res ∈ before
          ∧ ConflictResolution.path res = ConflictResolution.path shadowed) →
  resolveConflicts σ patches conflicts (before ++ shadowed :: after)
                   customResolutions
  = resolveConflicts σ patches conflicts (before ++ after) customResolutions.
Proof.
  intros (res & Hres & Hpath). apply resolveConflicts_matching_ext.
  intros c _. rewrite !matchingResolution_app.
  destruct (matchingResolution before c) as [r|] eqn:Hbefore; [done|].
  apply matchingResolution_cons_other. intros Heq.
  apply (proj1 (matchingResolution_None _ _) Hbefore res Hres). congruence.
Qed.

(** X5: resolutions for paths that are the path of no conflict are ignored. *)
Theorem resolveConflicts_unmatched_resolutions
    patches conflicts (resolutions : list ConflictResolution.t)
    customResolutions :
  resolveConflicts σ patches conflicts
    (filter (λ res, ConflictResolution.path res
                    ∈ ConflictDetail.path <$> conflicts) resolutions)
    customResolutions
  = resolveConflicts σ patches conflicts resolutions customResolutions.
Proof.
  apply resolveConflicts_matching_ext. intros c Hc.
  induction resolutions as [|r rs IH]; [done|].
  destruct (decide (ConflictResolution.path r = ConflictDetail.path c))
    as [Heq|Hne].
  - rewrite filter_cons_True
      by (rewrite Heq; by apply list_elem_of_fmap_2).
    by rewrite !matchingResolution_cons_same.
  - rewrite (matchingResolution_cons_other r rs) by done.
    destruct (decide (ConflictResolution.path r
                      ∈ ConflictDetail.path <$> conflicts)).
    + rewrite filter_cons_True by done.
      by rewrite matchingResolution_cons_other.
    + by rewrite filter_cons_False.
Qed.

(** X6: each conflict contributes at most one patch: the chosen patches are at
    most as many as the conflicts, and the result is at most as long as the
    input patches, the conflicts and the custom resolutions together. *)
Theorem resolveConflicts_length
    patches conflicts resolutions customResolutions :
  length (includedPatches σ patches conflicts resolutions) ≤ length conflicts
  ∧ length (resolveConflicts σ patches conflicts resolutions customResolutions)
    ≤ length patches + length conflicts + length customResolutions.
Proof.
  assert (length (includedPatches σ patches conflicts resolutions)
          ≤ length conflicts) as Hincl.
  { rewrite includedPatches_selection.
    etrans; [apply firstOccurrences_length|apply omap_length_le]. }
  split; [done|].
  destruct (decide (conflicts = [])) as [->|Hne].
  { change (resolveConflicts σ patches [] resolutions customResolutions)
      with patches. lia. }
  rewrite resolveConflicts_conflicts by done.
  rewrite !length_app, length_fmap.
  pose proof (length_filter
    (λ p, pathOf σ p ∉ ConflictDetail.path <$> conflicts) patches).
  lia.
Qed.

(** X7: every chosen patch is the first input patch with its hash, and no two
    chosen patches have the same hash. *)
Theorem includedPatches_hashes patches conflicts resolutions :
  (∀ p, p ∈ includedPatches σ patches conflicts resolutions →
        findMatchingPatch σ patches (Patch.hash (σ p)) = Some p)
  ∧ NoDup ((λ p, Patch.hash (σ p))
             <$> includedPatches σ patches conflicts resolutions).
Proof.
  assert (∀ p, p ∈ includedPatches σ patches conflicts resolutions →
               findMatchingPatch σ patches (Patch.hash (σ p)) = Some p)
    as Hown.
  { intros p (c & _ & Hsel)%includedPatches_elem_of.
    apply selection_Some in Hsel as (h & _ & Hp).
    by apply findMatchingPatch_own in Hp. }
  split; [done|].
  apply NoDup_fmap_2_strong.
  - intros p q Hp%Hown Hq%Hown Heq. rewrite Heq in Hp. congruence.
  - rewrite includedPatches_selection. apply firstOccurrences_NoDup.
Qed.

(** X8: the order of the conflicts decides the order of the chosen patches
    only: for a reordered list of conflicts the chosen patches are the
    same, in another order, they stay between the same non-conflicting
    patches and custom patches, and the result is a permutation of the
    result. *)
Theorem resolveConflicts_conflict_order
    patches conflicts conflicts' resolutions customResolutions :
  conflicts ≡ₚ conflicts' →
  resolveConflicts σ patches conflicts resolutions customResolutions
  ≡ₚ resolveConflicts σ patches conflicts' resolutions customResolutions
  ∧ includedPatches σ patches conflicts resolutions
    ≡ₚ includedPatches σ patches conflicts' resolutions
  ∧ (conflicts ≠ [] →
     resolveConflicts σ patches conflicts resolutions customResolutions
     = filter (λ p, pathOf σ p ∉ ConflictDetail.path <$> conflicts) patches
         ++ includedPatches σ patches conflicts resolutions
         ++ (CustomConflictResolution.patch <$> customResolutions)
     ∧ resolveConflicts σ patches conflicts' resolutions customResolutions
       = filter (λ p, pathOf σ p ∉ ConflictDetail.path <$> conflicts) patches
           ++ includedPatches σ patches conflicts' resolutions
           ++ (CustomConflictResolution.patch <$> customResolutions)).
Proof.
  intros Hperm.
  assert (includedPatches σ patches conflicts resolutions
          ≡ₚ includedPatches σ patches conflicts' resolutions) as Hincl.
  { rewrite !includedPatches_selection.
    apply NoDup_Permutation; [apply firstOccurrences_NoDup..|].
    intros p. rewrite !firstOccurrences_elem_of. by rewrite Hperm. }
  assert (conflicts ≠ [] →
    resolveConflicts σ patches conflicts' resolutions customResolutions
    = filter (λ p, pathOf σ p ∉ ConflictDetail.path <$> conflicts) patches
        ++ includedPatches σ patches conflicts' resolutions
        ++ (CustomConflictResolution.patch <$> customResolutions)) as Hsame.
  { intros Hne.
    assert (conflicts' ≠ []) as Hne'.
    { intros ->. by apply Permutation_nil_r in Hperm. }
    rewrite resolveConflicts_conflicts by done. f_equal.
    apply list_filter_iff. intros p. by rewrite Hperm. }
  split_and!; [|done|].
  - destruct (decide (conflicts = [])) as [->|Hne].
    { by apply Permutation_nil_l in Hperm as <-. }
    rewrite (Hsame Hne), resolveConflicts_conflicts by done.
    by rewrite Hincl.
  - intros Hne. split; [by apply resolveConflicts_conflicts|by apply Hsame].
Qed.

(** X9: the [path] of a custom resolution is never read: the result depends
    on the custom resolutions only through their patches. *)
Theorem resolveConflicts_custom_path
    patches conflicts resolutions
    (customResolutions customResolutions' : CustomConflictResolutions) :
  CustomConflictResolution.patch <$> customResolutions
  = CustomConflictResolution.patch <$> customResolutions' →
  resolveConflicts σ patches conflicts resolutions customResolutions
  = resolveConflicts σ patches conflicts resolutions customResolutions'.
Proof.
  intros Hsame. unfold resolveConflicts.
  by rewrite !customPatches_guard, Hsame.
Qed.
End MergeMore.


(** ** Unresolved hashes, default resolutions and the merge *)

Lemma unresolvedOptions_cons resolutions conflict conflicts :
  unresolvedOptions resolutions (conflict :: conflicts)
  = match matchingResolution resolutions conflict with
    | None => ConflictDetail.options conflict
    | Some _ => []
    end ++ unresolvedOptions resolutions conflicts.
Proof. reflexivity. Qed.

Lemma foldl_unresolvedStep resolutions conflicts unresolved :
  foldl (unresolvedStep resolutions) unresolved conflicts
  = foldl (λ s hash, JsSet.add hash s) unresolved
          (unresolvedOptions resolutions conflicts).
Proof.
  revert unresolved.
  induction conflicts as [|c cs IH]; intros unresolved; [done|].
  rewrite unresolvedOptions_cons, foldl_app. simpl. rewrite IH.
  unfold unresolvedStep. fold (matchingResolution resolutions c).
  by destruct (matchingResolution resolutions c).
Qed.

Lemma initializeResolutions_cons conflict conflicts :
  initializeResolutions (conflict :: conflicts)
  = match ConflictDetail.options conflict with
    | first :: _ =>
        ConflictResolution.mk (ConflictDetail.path conflict) first
          :: initializeResolutions conflicts
    | [] => initializeResolutions conflicts
    end.
Proof.
  unfold initializeResolutions.
  destruct (ConflictDetail.options conflict) as [|first rest] eqn:Hopts.
  - by rewrite filter_cons_False by (rewrite Hopts; simpl; lia).
  - rewrite filter_cons_True by (rewrite Hopts; simpl; lia).
    rewrite fmap_cons. unfold firstOption. by rewrite Hopts.
Qed.

Lemma initializeResolutions_elem_of conflicts res :
  res ∈ initializeResolutions conflicts →
  ∃ conflict first rest,
    conflict ∈ conflicts
    ∧ ConflictDetail.options conflict = first :: rest
    ∧ res = ConflictResolution.mk (ConflictDetail.path conflict) first.
Proof.
  induction conflicts as [|c cs IH]; [by intros ?%elem_of_nil|].
  rewrite initializeResolutions_cons.
  destruct (ConflictDetail.options c) as [|first rest] eqn:Hopts.
  - intros (c' & f & r & Hc' & H)%IH. exists c', f, r. split; [by right|done].
  - intros [->|(c' & f & r & Hc' & H)%IH]%elem_of_cons.
    + exists c, first, rest. split; [left|done].
    + exists c', f, r. split; [by right|done].
Qed.

Lemma matchingResolution_initialize_absent conflicts conflict :
  ConflictDetail.path conflict ∉ ConflictDetail.path <$> conflicts →
  matchingResolution (initializeResolutions conflicts) conflict = None.
Proof.
  intros Hnotin. apply matchingResolution_None.
  intros res (c & f & r & Hc & _ & ->)%initializeResolutions_elem_of Heq.
  apply Hnotin. simpl in Heq. rewrite <- Heq. by apply list_elem_of_fmap_2.
Qed.

(** With pairwise distinct conflict paths, the resolution consulted for a
    conflict among the default resolutions is the conflict's own. *)
Lemma matchingResolution_initialize conflicts conflict :
  NoDup (ConflictDetail.path <$> conflicts) →
  conflict ∈ conflicts →
  matchingResolution (initializeResolutions conflicts) conflict
  = match ConflictDetail.options conflict with
    | first :: _ =>
        Some (ConflictResolution.mk (ConflictDetail.path conflict) first)
    | [] => None
    end.
Proof.
  induction conflicts as [|c cs IH]; [by intros _ ?%elem_of_nil|].
  rewrite fmap_cons. intros [Hc Hcs]%NoDup_cons Hin.
  rewrite initializeResolutions_cons.
  apply elem_of_cons in Hin as [->|Hin].
  - destruct (ConflictDetail.options c) as [|first rest].
    + by apply matchingResolution_initialize_absent.
    + by apply matchingResolution_cons_same.
  - assert (ConflictDetail.path c ≠ ConflictDetail.path conflict) as Hne.
    { intros Heq. apply Hc. rewrite Heq. by apply list_elem_of_fmap_2. }
    destruct (ConflictDetail.options c) as [|first rest]; [by apply IH|].
    rewrite matchingResolution_cons_other by done. by apply IH.
Qed.

Section GenerateMore.
Context {V : Type}.
Variable σ : loc → Patch.t V.
Implicit Types (patches : list loc) (conflicts : list ConflictDetail.t)
  (resolutions : ConflictResolutions) (conflict : ConflictDetail.t)
  (customResolutions : CustomConflictResolutions) (p : loc).

(** X10: with at least one patch, [resolvedPatches] is the merge of the
    flattened groups.  Without patches it is empty, although the merge of
    no patches under conflicts would return the custom patches. *)
Theorem generateResolvedPatch_resolved
    (groups : list (list loc)) conflicts resolutions customResolutions :
  (concat groups ≠ [] →
   Result.resolvedPatches
     (generateResolvedPatch σ groups conflicts resolutions customResolutions)
   = resolveConflicts σ (concat groups) conflicts resolutions customResolutions)
  ∧ (concat groups = [] →
     Result.resolvedPatches
       (generateResolvedPatch σ groups conflicts resolutions customResolutions)
     = []
     ∧ (conflicts ≠ [] →
        resolveConflicts σ (concat groups) conflicts resolutions
                         customResolutions
        = CustomConflictResolution.patch <$> customResolutions)).
Proof.
  unfold generateResolvedPatch. cbv zeta. split.
  - intros Hne.
    rewrite bool_decide_eq_false_2 by (by destruct (concat groups)).
    case_bool_decide as Hc; [|done].
    by destruct conflicts.
  - intros ->. split; [done|]. intros Hne.
    rewrite resolveConflicts_conflicts, includedPatches_selection by done.
    rewrite (omap_ext_elem_of _ (λ _, None))
      by (intros c _; apply selection_no_patches).
    assert (omap (λ _ : ConflictDetail.t, @None loc) conflicts = []) as ->.
    { clear. by induction conflicts. }
    done.
Qed.

(** X11: with at least one patch, [unresolvedConflicts] lists the options of the
    conflicts whose path is the path of no resolution, each hash once, in
    the order of their first occurrence; patches, grouping and custom
    resolutions play no part. *)
Theorem generateResolvedPatch_unresolved_list
    (groups : list (list loc)) conflicts resolutions customResolutions :
  concat groups ≠ [] →
  Result.unresolvedConflicts
    (generateResolvedPatch σ groups conflicts resolutions customResolutions)
  = firstOccurrences (unresolvedOptions resolutions conflicts)
  ∧ NoDup (Result.unresolvedConflicts
             (generateResolvedPatch σ groups conflicts resolutions
                                    customResolutions)).
Proof.
  intros Hne.
  assert (Result.unresolvedConflicts
            (generateResolvedPatch σ groups conflicts resolutions
                                   customResolutions)
          = firstOccurrences (unresolvedOptions resolutions conflicts)) as ->.
  { unfold generateResolvedPatch. cbv zeta.
    rewrite bool_decide_eq_false_2 by (by destruct (concat groups)).
    case_bool_decide as Hc.
    - by destruct conflicts.
    - simpl. unfold JsSet.toArray.
      by rewrite foldl_unresolvedStep, foldl_add_empty. }
  split; [done|apply firstOccurrences_NoDup].
Qed.

(** X12: with the default resolutions of [initializeResolutions] nothing is
    reported as unresolved. *)
Theorem generateResolvedPatch_initialized
    (groups : list (list loc)) conflicts customResolutions :
  Result.unresolvedConflicts
    (generateResolvedPatch σ groups conflicts
       (initializeResolutions conflicts) customResolutions)
  = [].
Proof.
  unfold generateResolvedPatch. cbv zeta.
  case_bool_decide; [done|]. case_bool_decide; [done|].
  simpl. unfold JsSet.toArray. apply nil_no_elem. intros h Hh.
  apply unresolvedStep_elem_of in Hh as [[]%elem_of_nil|(c & Hc & Hnone & Hh)].
  destruct (ConflictDetail.options c) as [|first rest] eqn:Hopts;
    [by apply elem_of_nil in Hh|].
  apply (proj1 (matchingResolution_None _ _) Hnone
           (ConflictResolution.mk (ConflictDetail.path c) first)); [|done].
  clear -Hc Hopts. induction conflicts as [|c' cs IH];
    [by apply elem_of_nil in Hc|].
  rewrite initializeResolutions_cons.
  apply elem_of_cons in Hc as [<-|Hc].
  - rewrite Hopts. left.
  - destruct (ConflictDetail.options c'); [by apply IH|right; by apply IH].
Qed.

(** X13: with pairwise distinct conflict paths, merging with the default
    resolutions is merging without resolutions. *)
Theorem resolveConflicts_initialized patches conflicts customResolutions :
  NoDup (ConflictDetail.path <$> conflicts) →
  resolveConflicts σ patches conflicts (initializeResolutions conflicts)
                   customResolutions
  = resolveConflicts σ patches conflicts [] customResolutions.
Proof.
  intros Hnodup. destruct (decide (conflicts = [])) as [->|Hne]; [done|].
  rewrite !resolveConflicts_conflicts, !includedPatches_selection by done.
  do 3 f_equal. apply omap_ext_elem_of. intros c Hc.
  unfold selection. rewrite matchingResolution_initialize by done.
  unfold defaultSelection, includes. simpl.
  destruct (ConflictDetail.options c) as [|first rest]; [done|].
  by rewrite bool_decide_eq_true_2 by left.
Qed.
End GenerateMore.

(** X14: every default resolution selects an option of a conflict at its path,
    which is what the merge requires of a resolution before it follows
    it. *)
Theorem initializeResolutions_valid (conflicts : list ConflictDetail.t) res :
  res ∈ initializeResolutions conflicts →
  ∃ conflict,
    conflict ∈ conflicts
    ∧ ConflictResolution.path res = ConflictDetail.path conflict
    ∧ includes (ConflictDetail.options conflict)
               (ConflictResolution.selectedHash res) = true.
Proof.
  intros (c & first & rest & Hc & Hopts & ->)%initializeResolutions_elem_of.
  exists c. split_and!; [done..|].
  unfold includes. simpl. rewrite Hopts. apply bool_decide_eq_true_2. left.
Qed.


(** ** Repeated conflicts and repeated patches *)

Section MergeRepeats.
Context {V : Type}.
Variable σ : loc → Patch.t V.
Implicit Types (patches : list loc) (conflicts : list ConflictDetail.t)
  (resolutions : ConflictResolutions) (conflict : ConflictDetail.t)
  (customResolutions : CustomConflictResolutions) (p : loc).

Lemma foldl_resolveStep_member patches resolutions conflicts included p :
  p ∈ included →
  p ∈ foldl (resolveStep σ patches resolutions) included conflicts.
Proof.
  intros Hp. rewrite foldl_resolveStep, foldl_add_elem_of. by left.
Qed.

(** X15: a conflict that occurs a second time in the list changes nothing: the
    callback finds its patch in the set already. *)
Theorem resolveConflicts_repeated_conflict
    patches (before middle after : list ConflictDetail.t) conflict
    resolutions customResolutions :
  resolveConflicts σ patches
    (before ++ conflict :: middle ++ conflict :: after)
    resolutions customResolutions
  = resolveConflicts σ patches (before ++ conflict :: middle ++ after)
      resolutions customResolutions.
Proof.
  rewrite !resolveConflicts_conflicts by (by destruct before).
  f_equal; [|f_equal].
  - apply list_filter_iff. intros p.
    rewrite !fmap_app, !fmap_cons, !fmap_app, !fmap_cons.
    rewrite !elem_of_app, !elem_of_cons, !elem_of_app, !elem_of_cons. tauto.
  - unfold includedPatches.
    rewrite !foldl_app. simpl. rewrite !foldl_app. simpl. f_equal.
    rewrite (resolveStep_selection σ patches resolutions (foldl _ _ middle)).
    destruct (selection σ patches resolutions conflict) as [p|] eqn:Hsel;
      [|done].
    apply add_member, foldl_resolveStep_member.
    rewrite resolveStep_selection, Hsel. apply add_elem_of. by left.
Qed.

(** X16: when no input patch occurs twice in the input array, the patches looked
    up for the options of a conflict are at that conflict's path, and the
    custom patches are pairwise different and none of them is an input
    patch, no patch occurs twice in the result. *)
Theorem resolveConflicts_no_patch_twice
    patches conflicts resolutions customResolutions :
  NoDup patches →
  (∀ conflict h p,
     conflict ∈ conflicts →
     h ∈ ConflictDetail.options conflict →
     findMatchingPatch σ patches h = Some p →
     pathOf σ p = ConflictDetail.path conflict) →
  NoDup (CustomConflictResolution.patch <$> customResolutions) →
  (∀ custom, custom ∈ customResolutions →
             CustomConflictResolution.patch custom ∉ patches) →
  NoDup (resolveConflicts σ patches conflicts resolutions customResolutions).
Proof.
  intros Hpatches Hopt Hcustom Hfresh.
  destruct (decide (conflicts = [])) as [->|Hne]; [done|].
  rewrite resolveConflicts_conflicts by done.
  apply NoDup_app. split_and!; [by apply NoDup_filter| |].
  - intros p [Hpath Hp]%list_elem_of_filter.
    rewrite elem_of_app. intros [Hin|Hin].
    + apply includedPatches_elem_of in Hin as (c & Hc & Hsel).
      apply selection_Some in Hsel as (h & Hh & Hfound).
      apply Hpath. rewrite (Hopt c h p Hc Hh Hfound).
      by apply list_elem_of_fmap_2.
    + apply list_elem_of_fmap in Hin as (custom & -> & Hin).
      by apply (Hfresh custom).
  - apply NoDup_app. split_and!; [| |done].
    + rewrite includedPatches_selection. apply firstOccurrences_NoDup.
    + intros p Hp%includedPatches_input
        (custom & -> & Hin)%list_elem_of_fmap.
      by apply (Hfresh custom).
Qed.
End MergeRepeats.

(** ** Properties of the JSON editor *)

Section JsonEditorProperties.
Context {Json : Type}.
Variable JSON_parse : string → option Json.
Variable JSON_stringify : Json → string.
Variable formatJson : string → option string.
Variable trim : string → string.

Lemma act_readOnly props st action :
  JsonEditor.readOnly props = true →
  (JsonEditor.act JSON_parse JSON_stringify formatJson trim props st action).2
  = []
  ∧ JsonEditor.error
      (JsonEditor.act JSON_parse JSON_stringify formatJson trim
                      props st action).1
    = JsonEditor.error st.
Proof.
  intros Hro. destruct action as [[| |]|]; simpl.
  - unfold JsonEditor.handleFormat. rewrite Hro.
    by destruct (formatJson _).
  - unfold JsonEditor.handleCompress. rewrite Hro.
    destruct (negb _); [done|]. by destruct (JSON_parse _).
  - by destruct (JsonEditor.resetRendered _ _).
  - unfold JsonEditor.valueEffect.
    destruct (_ && _); [|done]. by destruct (JSON_parse _).
Qed.

(** X17: in a read-only editor no sequence of clicks on the toolbar and of
    changes of the value calls [onChange], and none changes the error
    shown. *)
Theorem run_readOnly st (trace : list (JsonEditor.Props * JsonEditor.Action)) :
  Forall (λ step, JsonEditor.readOnly step.1 = true) trace →
  (JsonEditor.run JSON_parse JSON_stringify formatJson trim st trace).2 = []
  ∧ JsonEditor.error
      (JsonEditor.run JSON_parse JSON_stringify formatJson trim st trace).1
    = JsonEditor.error st.
Proof.
  intros Hall. revert st.
  induction Hall as [|[props action] trace Hro _ IH]; intros st; [done|].
  simpl in Hro. simpl.
  destruct (act_readOnly props st action Hro) as [Hcalls Herror].
  destruct (JsonEditor.act _ _ _ _ props st action) as [st' calls].
  simpl in Hcalls, Herror. subst calls.
  destruct (IH st') as [Hcalls' Herror'].
  destruct (JsonEditor.run _ _ _ _ st' trace) as [st'' calls'].
  simpl in *. subst calls'. split; [done|congruence].
Qed.

(** X18: in an editable editor, when compressing reports a text and that
    text becomes the value, the text area shows that text, and compressing
    again reports the same text and ends in the state the first compressing
    ended in, whether the effect of the value change ran in between (the
    text differs from the former value) or not: provided a stringified value
    parses to a value that stringifies to the same text, and is not
    blank. *)
Theorem handleCompress_again props st st' text :
  (∀ parsed, ∃ parsed',
     JSON_parse (JSON_stringify parsed) = Some parsed'
     ∧ JSON_stringify parsed' = JSON_stringify parsed) →
  (∀ parsed, JsonEditor.truthy (trim (JSON_stringify parsed)) = true) →
  JsonEditor.readOnly props = false →
  JsonEditor.handleCompress JSON_parse JSON_stringify trim props st
  = (st', [text]) →
  (JsonEditor.actualValue (JsonEditor.mkProps text false) st' = text
   ∧ JsonEditor.handleCompress JSON_parse JSON_stringify trim
       (JsonEditor.mkProps text false) st'
     = (st', [text]))
  ∧ (JsonEditor.actualValue (JsonEditor.mkProps text false)
       (JsonEditor.valueEffect JSON_parse JSON_stringify trim
          (JsonEditor.mkProps text false) st')
     = text
     ∧ JsonEditor.handleCompress JSON_parse JSON_stringify trim
         (JsonEditor.mkProps text false)
         (JsonEditor.valueEffect JSON_parse JSON_stringify trim
            (JsonEditor.mkProps text false) st')
       = (st', [text])).
Proof.
  intros Hround Hblank Hrw. unfold JsonEditor.handleCompress at 1.
  rewrite Hrw. destruct (negb _); [done|].
  destruct (JSON_parse (JsonEditor.value props)) as [parsed|]; [|done].
  intros [= <- <-].
  destruct (Hround parsed) as (parsed' & Hparse & Hprint).
  assert (∀ shown,
    JsonEditor.handleCompress JSON_parse JSON_stringify trim
      (JsonEditor.mkProps (JSON_stringify parsed) false)
      (JsonEditor.mkState (JsonEditor.error st) shown)
    = (JsonEditor.mkState (JsonEditor.error st) None,
       [JSON_stringify parsed])) as Hagain.
  { intros shown. unfold JsonEditor.handleCompress. simpl.
    by rewrite Hblank, Hparse, Hprint. }
  split; [split; [done|apply Hagain]|].
  unfold JsonEditor.valueEffect. simpl. rewrite Hblank, Hparse, Hprint.
  destruct (JsonEditor.truthy (JSON_stringify parsed)); simpl.
  - split; [done|apply Hagain].
  - split; [done|apply Hagain].
Qed.
End JsonEditorProperties.


(** ** The merge on concrete inputs *)

Module Examples.

Open Scope string_scope.

(** Two patches for [/a] from different groups, one for [/b], and two
    patches written by the user. *)
Definition store (l : loc) : Patch.t string :=
  match l with
  | 0 => Patch.mk PatchOperation.add "/a" (Some "1") "h1"
  | 1 => Patch.mk PatchOperation.add "/a" (Some "2") "h2"
  | 2 => Patch.mk PatchOperation.replace "/b" (Some "3") "h3"
  | 3 => Patch.mk PatchOperation.replace "/a" (Some "12") "merged"
  | _ => Patch.mk PatchOperation.add "/c" (Some "4") "extra"
  end.

Definition conflictA : ConflictDetail.t := ConflictDetail.mk "/a" ["h1"; "h2"].
Definition pickSecond : ConflictResolution.t := ConflictResolution.mk "/a" "h2".
Definition pickUnknown : ConflictResolution.t := ConflictResolution.mk "/a" "h9".
Definition conflictFirst : ConflictDetail.t := ConflictDetail.mk "/a" ["h1"].
Definition customA : CustomConflictResolution.t :=
  CustomConflictResolution.mk "/a" 3.
Definition customC : CustomConflictResolution.t :=
  CustomConflictResolution.mk "/c" 4.
Definition emptyGroups : list (list loc) := [[]; []].

(** The examples of the specification. *)
Example default_first_option :
  resolveConflicts store [0; 1; 2] [conflictA] [] [] = [2; 0].
Proof. reflexivity. Qed.

Example resolution_selects :
  resolveConflicts store [0; 1; 2] [conflictA] [pickSecond] [] = [2; 1].
Proof. reflexivity. Qed.

Example no_options :
  initializeResolutions [ConflictDetail.mk "/a" []] = []
  ∧ resolveConflicts store [0; 1; 2] [ConflictDetail.mk "/a" []] [] [] = [2].
Proof. split; reflexivity. Qed.

(** C1 fails: the patch of a custom resolution for [/a] is appended after
    the patch chosen for [/a]. *)
Lemma resolveConflicts_path_twice :
  ¬ NoDup (pathOf store
             <$> resolveConflicts store [0; 1; 2] [conflictA] [] [customA]).
Proof.
  change (¬ NoDup ["/b"; "/a"; "/a"]).
  intros [_ [Hdup _]%NoDup_cons]%NoDup_cons. apply Hdup. left.
Qed.

(** Two input patches outside the conflict paths with the same path both
    pass through. *)
Example nonconflicting_path_twice :
  pathOf store <$> resolveConflicts store [2; 2; 0] [conflictA] [] []
  = ["/b"; "/b"; "/a"].
Proof. reflexivity. Qed.

(** C9 fails: the resolution selects the option [h2], no input patch has
    that hash, and nothing is chosen; merging again without a resolution
    for [/a] chooses the patch of the first option. *)
Lemma resolveConflicts_feedback_differs :
  resolveConflicts store [0; 2] [conflictA]
    (feedbackResolutions store [0; 2] [conflictA] [pickSecond]) []
  ≠ resolveConflicts store [0; 2] [conflictA] [pickSecond] [].
Proof.
  change ([2; 0] ≠ [2]). discriminate.
Qed.

(** Two conflicts with the same path: the resolution read back for the
    first is consulted for the second. *)
Example feedback_shared_path :
  let conflicts := [ConflictDetail.mk "/a" ["h1"];
                    ConflictDetail.mk "/a" ["h2"; "h1"]] in
  resolveConflicts store [0; 1; 2] conflicts [pickSecond] [] = [2; 0; 1]
  ∧ feedbackResolutions store [0; 1; 2] conflicts [pickSecond]
    = [ConflictResolution.mk "/a" "h1"; ConflictResolution.mk "/a" "h2"]
  ∧ resolveConflicts store [0; 1; 2] conflicts
      (feedbackResolutions store [0; 1; 2] conflicts [pickSecond]) []
    = [2; 0].
Proof. repeat split; reflexivity. Qed.

(** *** The theorems at concrete inputs *)

Lemma resolveConflicts_segments_witness :
  [conflictA] ≠ []
  ∧ resolveConflicts store [0; 1; 2] [conflictA] [] [customA]
    = [2; 0; 3].
Proof.
  split; [done|].
  exact (proj1 (resolveConflicts_segments store [0; 1; 2] [conflictA] []
                  [customA] ltac:(done))).
Defined.

Lemma resolveConflicts_conflict_paths_witness :
  [conflictA] ≠ []
  ∧ 0 ∉ resolveConflicts store [0; 1; 2] [conflictA] [pickSecond] [customA].
Proof.
  split; [done|].
  apply (resolveConflicts_conflict_paths store [0; 1; 2] [conflictA]
           [pickSecond] [customA]).
  - done.
  - compute_done.
  - compute_done.
  - intros conflict ->%list_elem_of_singleton. vm_compute. discriminate.
  - compute_done.
Defined.

Lemma resolveConflicts_invalid_resolution_witness :
  (conflictFirst ∈ [conflictFirst]
   ∧ matchingResolution [pickSecond] conflictFirst = Some pickSecond
   ∧ (ConflictResolution.selectedHash pickSecond
        ∉ ConflictDetail.options conflictFirst)
   ∧ ConflictDetail.options conflictFirst = "h1" :: [])
  ∧ 0 ∈ resolveConflicts store [0; 1; 2] [conflictFirst] [pickSecond] []
  ∧ resolveConflicts store [0; 1; 2] [conflictFirst] [pickSecond] [] = [2; 0]
  ∧ 1 ∉ resolveConflicts store [0; 1; 2] [conflictFirst] [pickSecond] [].
Proof.
  assert (ConflictResolution.selectedHash pickSecond
            ∉ ConflictDetail.options conflictFirst) as Hnotin by compute_done.
  split; [split_and!; [left|reflexivity|exact Hnotin|reflexivity]|].
  destruct (resolveConflicts_invalid_resolution store [0; 1; 2]
              [conflictFirst] [pickSecond] [] conflictFirst pickSecond "h1" []
              ltac:(left) eq_refl Hnotin eq_refl)
    as (_ & _ & Hchosen & Hresult & Hnamed).
  split_and!.
  - exact (proj1 (Hchosen 0 eq_refl)).
  - exact (Hresult [] [] eq_refl).
  - apply (Hnamed [] [] 1 eq_refl eq_refl).
    + compute_done.
    + intros other []%elem_of_nil.
    + apply not_elem_of_nil.
Defined.

Lemma resolveConflicts_omission_witness :
  (matchingResolution [pickSecond] conflictA = Some pickSecond
   ∧ (ConflictResolution.selectedHash pickSecond
        ∈ ConflictDetail.options conflictA)
   ∧ ∀ p, p ∈ [0; 2] →
          Patch.hash (store p) ≠ ConflictResolution.selectedHash pickSecond)
  ∧ resolveStep store [0; 2] [pickSecond] [2] conflictA = [2].
Proof.
  assert (∀ p, p ∈ [0; 2] →
            Patch.hash (store p) ≠ ConflictResolution.selectedHash pickSecond)
    as Hmiss.
  { intros p [->|[->|[]%elem_of_nil]%elem_of_cons]%elem_of_cons; discriminate. }
  assert (ConflictResolution.selectedHash pickSecond
            ∈ ConflictDetail.options conflictA) as Hin by compute_done.
  split; [split_and!; [reflexivity|exact Hin|exact Hmiss]|].
  apply (resolveConflicts_omission store [0; 2] [pickSecond] conflictA).
  left. exists pickSecond. split_and!; [reflexivity|exact Hin|exact Hmiss].
Defined.

Lemma generateResolvedPatch_unresolved_witness :
  (concat [[0; 1]; [2]] ≠ [] ∧ [conflictA] ≠ [])
  ∧ "h1" ∈ Result.unresolvedConflicts
             (generateResolvedPatch store [[0; 1]; [2]] [conflictA] [] [])
  ∧ 0 ∈ Result.resolvedPatches
          (generateResolvedPatch store [[0; 1]; [2]] [conflictA] [] []).
Proof.
  split; [split; done|].
  apply (proj2 (generateResolvedPatch_unresolved store [[0; 1]; [2]]
                  [conflictA] [] [] ltac:(done) ltac:(done))
           conflictA "h1" ["h2"] 0).
  - left.
  - intros res []%elem_of_nil.
  - reflexivity.
  - reflexivity.
Defined.

Lemma generateResolvedPatch_trivial_witness :
  (concat emptyGroups = [] ∧ concat [[0]; [2]] ≠ [])
  ∧ generateResolvedPatch store emptyGroups [conflictA] [pickSecond] [customA]
    = Result.mk [] []
  ∧ generateResolvedPatch store [[0]; [2]] [] [pickSecond] [customA]
    = Result.mk [] [0; 2].
Proof.
  split; [split; [reflexivity|discriminate]|]. split.
  - apply (proj1 (generateResolvedPatch_trivial store emptyGroups [conflictA]
                    [pickSecond] [customA])). reflexivity.
  - apply (proj2 (generateResolvedPatch_trivial store [[0]; [2]] [conflictA]
                    [pickSecond] [customA])). discriminate.
Defined.

Lemma resolveConflicts_feedback_witness :
  (NoDup (ConflictDetail.path <$> [conflictA])
   ∧ ∀ conflict res,
       conflict ∈ [conflictA] →
       matchingResolution [pickSecond] conflict = Some res →
       ConflictResolution.selectedHash res ∈ ConflictDetail.options conflict →
       is_Some (findMatchingPatch store [0; 1; 2]
                  (ConflictResolution.selectedHash res)))
  ∧ resolveConflicts store [0; 1; 2] [conflictA]
      (feedbackResolutions store [0; 1; 2] [conflictA] [pickSecond]) [customA]
    = resolveConflicts store [0; 1; 2] [conflictA] [pickSecond] [customA].
Proof.
  assert (NoDup (ConflictDetail.path <$> [conflictA])) as Hnodup
    by apply NoDup_singleton.
  assert (∀ conflict res,
       conflict ∈ [conflictA] →
       matchingResolution [pickSecond] conflict = Some res →
       ConflictResolution.selectedHash res ∈ ConflictDetail.options conflict →
       is_Some (findMatchingPatch store [0; 1; 2]
                  (ConflictResolution.selectedHash res))) as Hfound.
  { intros conflict res ->%list_elem_of_singleton [= <-] _. by exists 1. }
  split; [by split|].
  by apply (resolveConflicts_feedback store [0; 1; 2] [conflictA] [pickSecond]
              [customA]).
Defined.

Lemma resolveConflicts_distinct_paths_witness :
  NoDup (pathOf store
           <$> resolveConflicts store [0; 1; 2] [conflictA] [pickSecond]
                 [customC]).
Proof.
  apply (resolveConflicts_distinct_paths store [0; 1; 2] [conflictA]
           [pickSecond] [customC]).
  - apply NoDup_singleton.
  - intros conflict h p ->%list_elem_of_singleton Hh
      [[->|[->|[->|[]%elem_of_nil]%elem_of_cons]%elem_of_cons]%elem_of_cons <-]
        %findMatchingPatch_Some; [reflexivity..|].
    apply elem_of_cons in Hh as [?|[?|[]%elem_of_nil]%elem_of_cons];
      discriminate.
  - apply NoDup_singleton.
  - apply NoDup_singleton.
  - intros custom p ->%list_elem_of_singleton
      [->|[->|[->|[]%elem_of_nil]%elem_of_cons]%elem_of_cons]%elem_of_cons;
      discriminate.
Defined.

End Examples.

(** ** The further properties on concrete inputs *)

Module MoreExamples.

Import Examples.
Open Scope string_scope.

Definition pickFirst : ConflictResolution.t := ConflictResolution.mk "/a" "h1".
Definition conflictB : ConflictDetail.t := ConflictDetail.mk "/b" ["h3"].

Lemma resolveConflicts_sources_witness :
  3 ∈ resolveConflicts store [0; 1; 2] [conflictA] [] [customA]
  ∧ (3 ∈ [0; 1; 2] ∨ 3 ∈ CustomConflictResolution.patch <$> [customA]).
Proof.
  assert (3 ∈ resolveConflicts store [0; 1; 2] [conflictA] [] [customA])
    as Hin by compute_done.
  split; [exact Hin|].
  exact (resolveConflicts_sources store [0; 1; 2] [conflictA] [] [customA] 3
           Hin).
Defined.

Lemma resolveConflicts_valid_resolution_witness :
  (conflictA ∈ [conflictA]
   ∧ matchingResolution [pickSecond] conflictA = Some pickSecond
   ∧ (ConflictResolution.selectedHash pickSecond
        ∈ ConflictDetail.options conflictA)
   ∧ findMatchingPatch store [0; 1; 2]
       (ConflictResolution.selectedHash pickSecond) = Some 1)
  ∧ 1 ∈ resolveConflicts store [0; 1; 2] [conflictA] [pickSecond] [].
Proof.
  assert (ConflictResolution.selectedHash pickSecond
            ∈ ConflictDetail.options conflictA) as Hin by compute_done.
  split; [split_and!; [left|reflexivity|exact Hin|reflexivity]|].
  exact (proj1 (proj2 (resolveConflicts_valid_resolution store [0; 1; 2]
           [conflictA] [pickSecond] [] conflictA pickSecond 1
           ltac:(left) eq_refl Hin eq_refl))).
Defined.

Lemma resolveConflicts_shadowed_resolution_witness :
  (∃ res, res ∈ [pickSecond]
          ∧ ConflictResolution.path res = ConflictResolution.path pickFirst)
  ∧ resolveConflicts store [0; 1; 2] [conflictA] [pickSecond; pickFirst] []
    = resolveConflicts store [0; 1; 2] [conflictA] [pickSecond] [].
Proof.
  assert (∃ res, res ∈ [pickSecond]
            ∧ ConflictResolution.path res = ConflictResolution.path pickFirst)
    as Hshadow.
  { exists pickSecond. split; [left|reflexivity]. }
  split; [exact Hshadow|].
  exact (resolveConflicts_shadowed_resolution store [0; 1; 2] [conflictA]
           [pickSecond] [] pickFirst [] Hshadow).
Defined.

Lemma includedPatches_hashes_witness :
  1 ∈ includedPatches store [0; 1; 2] [conflictA] [pickSecond]
  ∧ findMatchingPatch store [0; 1; 2] (Patch.hash (store 1)) = Some 1.
Proof.
  assert (1 ∈ includedPatches store [0; 1; 2] [conflictA] [pickSecond])
    as Hin by compute_done.
  split; [exact Hin|].
  exact (proj1 (includedPatches_hashes store [0; 1; 2] [conflictA]
                  [pickSecond]) 1 Hin).
Defined.

Lemma resolveConflicts_conflict_order_witness :
  [conflictA; conflictB] ≡ₚ [conflictB; conflictA]
  ∧ resolveConflicts store [0; 1; 2; 4] [conflictA; conflictB] [] [customA]
    = [4; 0; 2; 3]
  ∧ resolveConflicts store [0; 1; 2; 4] [conflictB; conflictA] [] [customA]
    = [4; 2; 0; 3]
  ∧ resolveConflicts store [0; 1; 2; 4] [conflictA; conflictB] [] [customA]
    ≡ₚ resolveConflicts store [0; 1; 2; 4] [conflictB; conflictA] []
         [customA].
Proof.
  assert ([conflictA; conflictB] ≡ₚ [conflictB; conflictA]) as Hperm
    by apply perm_swap.
  split; [exact Hperm|].
  split; [reflexivity|]. split; [reflexivity|].
  exact (proj1 (resolveConflicts_conflict_order store [0; 1; 2; 4]
                  [conflictA; conflictB] [conflictB; conflictA] [] [customA]
                  Hperm)).
Defined.

Lemma resolveConflicts_custom_path_witness :
  CustomConflictResolution.patch <$> [customA]
  = CustomConflictResolution.patch <$> [CustomConflictResolution.mk "/zzz" 3]
  ∧ resolveConflicts store [0; 1; 2] [conflictA] [] [customA]
    = resolveConflicts store [0; 1; 2] [conflictA] []
        [CustomConflictResolution.mk "/zzz" 3].
Proof.
  split; [reflexivity|].
  exact (resolveConflicts_custom_path store [0; 1; 2] [conflictA] []
           [customA] [CustomConflictResolution.mk "/zzz" 3] eq_refl).
Defined.

Lemma generateResolvedPatch_resolved_witness :
  (concat [[0; 1]; [2]] ≠ [] ∧ concat emptyGroups = [] ∧ [conflictA] ≠ [])
  ∧ Result.resolvedPatches
      (generateResolvedPatch store [[0; 1]; [2]] [conflictA] [] [customA])
    = resolveConflicts store (concat [[0; 1]; [2]]) [conflictA] [] [customA]
  ∧ Result.resolvedPatches
      (generateResolvedPatch store emptyGroups [conflictA] [] [customA])
    = []
  ∧ resolveConflicts store (concat emptyGroups) [conflictA] [] [customA]
    = CustomConflictResolution.patch <$> [customA].
Proof.
  split; [split_and!; [discriminate|reflexivity|discriminate]|].
  split_and!.
  - apply (proj1 (generateResolvedPatch_resolved store [[0; 1]; [2]]
                    [conflictA] [] [customA])). discriminate.
  - apply (proj1 (proj2 (generateResolvedPatch_resolved store emptyGroups
                           [conflictA] [] [customA]) eq_refl)).
  - apply (proj2 (proj2 (generateResolvedPatch_resolved store emptyGroups
                           [conflictA] [] [customA]) eq_refl)). discriminate.
Defined.

Lemma generateResolvedPatch_unresolved_list_witness :
  concat [[0; 1]; [2]] ≠ []
  ∧ Result.unresolvedConflicts
      (generateResolvedPatch store [[0; 1]; [2]]
         [conflictA; conflictB; conflictA] [ConflictResolution.mk "/b" "h3"] [])
    = firstOccurrences
        (unresolvedOptions [ConflictResolution.mk "/b" "h3"]
           [conflictA; conflictB; conflictA]).
Proof.
  split; [discriminate|].
  apply (generateResolvedPatch_unresolved_list store [[0; 1]; [2]]
           [conflictA; conflictB; conflictA]
           [ConflictResolution.mk "/b" "h3"] []).
  discriminate.
Defined.

Lemma resolveConflicts_initialized_witness :
  NoDup (ConflictDetail.path <$> [conflictA; conflictB])
  ∧ resolveConflicts store [0; 1; 2] [conflictA; conflictB]
      (initializeResolutions [conflictA; conflictB]) [customA]
    = resolveConflicts store [0; 1; 2] [conflictA; conflictB] [] [customA].
Proof.
  assert (NoDup (ConflictDetail.path <$> [conflictA; conflictB])) as Hnodup
    by compute_done.
  split; [exact Hnodup|].
  exact (resolveConflicts_initialized store [0; 1; 2] [conflictA; conflictB]
           [customA] Hnodup).
Defined.

Lemma initializeResolutions_valid_witness :
  pickFirst ∈ initializeResolutions [conflictA; ConflictDetail.mk "/c" []]
  ∧ ∃ conflict,
      conflict ∈ [conflictA; ConflictDetail.mk "/c" []]
      ∧ ConflictResolution.path pickFirst = ConflictDetail.path conflict
      ∧ includes (ConflictDetail.options conflict)
                 (ConflictResolution.selectedHash pickFirst) = true.
Proof.
  assert (pickFirst
            ∈ initializeResolutions [conflictA; ConflictDetail.mk "/c" []])
    as Hin by left.
  split; [exact Hin|].
  exact (initializeResolutions_valid [conflictA; ConflictDetail.mk "/c" []]
           pickFirst Hin).
Defined.

(** A fragment of JSON with the two literals [true] and [false], enough to
    run the editor. *)
Definition parseLiteral (s : string) : option bool :=
  if String.eqb s "true" then Some true
  else if String.eqb s "false" then Some false
  else None.

Definition printLiteral (b : bool) : string := if b then "true" else "false".

Definition formatLiteral (s : string) : option string :=
  printLiteral <$> parseLiteral s.

Definition noTrim (s : string) : string := s.

Lemma run_readOnly_witness :
  Forall (λ step, JsonEditor.readOnly step.1 = true)
    [(JsonEditor.mkProps "true" true, JsonEditor.ValueChanged);
     (JsonEditor.mkProps "true" true, JsonEditor.Click JsonEditor.ResetDisplay);
     (JsonEditor.mkProps "oops" true, JsonEditor.Click JsonEditor.Format);
     (JsonEditor.mkProps "false" true, JsonEditor.Click JsonEditor.Compress)]
  ∧ (JsonEditor.run parseLiteral printLiteral formatLiteral noTrim
       (JsonEditor.mkState (Some "e") None)
       [(JsonEditor.mkProps "true" true, JsonEditor.ValueChanged);
        (JsonEditor.mkProps "true" true,
         JsonEditor.Click JsonEditor.ResetDisplay);
        (JsonEditor.mkProps "oops" true, JsonEditor.Click JsonEditor.Format);
        (JsonEditor.mkProps "false" true,
         JsonEditor.Click JsonEditor.Compress)]).2 = [].
Proof.
  assert (Forall (λ step, JsonEditor.readOnly step.1 = true)
    [(JsonEditor.mkProps "true" true, JsonEditor.ValueChanged);
     (JsonEditor.mkProps "true" true, JsonEditor.Click JsonEditor.ResetDisplay);
     (JsonEditor.mkProps "oops" true, JsonEditor.Click JsonEditor.Format);
     (JsonEditor.mkProps "false" true, JsonEditor.Click JsonEditor.Compress)])
    as Hall.
  { repeat constructor. }
  split; [exact Hall|].
  exact (proj1 (run_readOnly parseLiteral printLiteral formatLiteral noTrim
                  (JsonEditor.mkState (Some "e") None) _ Hall)).
Defined.

Lemma handleCompress_again_witness :
  ((∀ parsed, ∃ parsed',
      parseLiteral (printLiteral parsed) = Some parsed'
      ∧ printLiteral parsed' = printLiteral parsed)
   ∧ (∀ parsed, JsonEditor.truthy (noTrim (printLiteral parsed)) = true)
   ∧ JsonEditor.handleCompress parseLiteral printLiteral noTrim
       (JsonEditor.mkProps "true" false) JsonEditor.initialState
     = (JsonEditor.initialState, ["true"]))
  ∧ JsonEditor.valueEffect parseLiteral printLiteral noTrim
      (JsonEditor.mkProps "true" false) JsonEditor.initialState
    = JsonEditor.mkState None (Some "true")
  ∧ JsonEditor.handleCompress parseLiteral printLiteral noTrim
      (JsonEditor.mkProps "true" false)
      (JsonEditor.valueEffect parseLiteral printLiteral noTrim
         (JsonEditor.mkProps "true" false) JsonEditor.initialState)
    = (JsonEditor.initialState, ["true"]).
Proof.
  assert (∀ parsed, ∃ parsed',
      parseLiteral (printLiteral parsed) = Some parsed'
      ∧ printLiteral parsed' = printLiteral parsed) as Hround.
  { intros parsed. exists parsed. by destruct parsed. }
  assert (∀ parsed, JsonEditor.truthy (noTrim (printLiteral parsed)) = true)
    as Hblank.
  { by intros []. }
  split; [split_and!; [exact Hround|exact Hblank|reflexivity]|].
  split; [reflexivity|].
  exact (proj2 (proj2 (handleCompress_again parseLiteral printLiteral noTrim
           (JsonEditor.mkProps "true" false) JsonEditor.initialState
           JsonEditor.initialState "true" Hround Hblank eq_refl eq_refl))).
Defined.

Lemma resolveConflicts_no_patch_twice_witness :
  NoDup (resolveConflicts store [0; 1; 2] [conflictA] [pickSecond] [customA]).
Proof.
  apply (resolveConflicts_no_patch_twice store [0; 1; 2] [conflictA]
           [pickSecond] [customA]).
  - compute_done.
  - intros conflict h p ->%list_elem_of_singleton Hh
      [[->|[->|[->|[]%elem_of_nil]%elem_of_cons]%elem_of_cons]%elem_of_cons <-]
        %findMatchingPatch_Some; [reflexivity..|].
    apply elem_of_cons in Hh as [?|[?|[]%elem_of_nil]%elem_of_cons];
      discriminate.
  - apply NoDup_singleton.
  - intros custom ->%list_elem_of_singleton. compute_done.
Defined.

End MoreExamples.
